(** * ScaleOperation: the undoable scale command of UM/Operations/ScaleOperation.py

    A shallow embedding of [ScaleOperation] ([__init__], [undo], [redo],
    [mergeWith]) and the properties of its undo/redo/merge contract.

    Numbers.  The components of a [Vector] are Python floats in the source.
    They are embedded as exact rationals ([Q]): every comparison, branch and
    arithmetic operation of the source is kept, rounding error is not
    modelled.  Equality of numbers is [Qeq] ([==]); the test [a != 0] of the
    source is [negb (Qeq_bool a 0)].  Division by zero raises
    [ZeroDivisionError], as float division does in Python.

    Effects.  [redo] and [undo] mutate the scene node held in [self._node],
    and [redo] also overwrites [self._scale].  Both are embedded in a state
    monad over the pair (operation, node) whose state survives a raised
    exception, as the Python objects do. *)

From Stdlib Require Import QArith Qabs Qround ZArith Bool Lia Lqa Setoid Morphisms.

Local Open Scope Q_scope.

(** ** Numbers *)

Definition Qlt_bool (a b : Q) : bool := negb (Qle_bool b a).
Definition Qne_bool (a b : Q) : bool := negb (Qeq_bool a b).

(** [round(v, 2)]: Python 3 rounds to the nearest multiple of 1/100, a tie
    going to the even neighbour. *)
Definition round_half_even (q : Q) : Z :=
  let n := Qfloor q in
  match Qcompare (q - inject_Z n) (1 # 2) with
  | Lt => n
  | Gt => (n + 1)%Z
  | Eq => if Z.even n then n else (n + 1)%Z
  end.

Definition round (q : Q) (ndigits : nat) : Q :=
  let p := inject_Z (10 ^ Z.of_nat ndigits) in
  inject_Z (round_half_even (q * p)) / p.

(** ** UM.Math.Vector *)

(** Modelled from the spec: [UM/Math/Vector.py] is not among the sources.
    The spec has it a vector of three numbers with component access and
    assignment, [+], [*] (component-wise and by a scalar) and unary minus;
    these are the operations [ScaleOperation] applies to it. *)
Record Vector : Type := mkVector { x : Q; y : Q; z : Q }.

(** [Vector()] and [Vector(0, 0, 0)] *)
Definition Vector0 : Vector := mkVector 0 0 0.

Definition setX (v : Vector) (a : Q) : Vector := mkVector a (y v) (z v).
Definition setY (v : Vector) (a : Q) : Vector := mkVector (x v) a (z v).
Definition setZ (v : Vector) (a : Q) : Vector := mkVector (x v) (y v) a.

(** [u + v], [-v], [k * v] and the component-wise [u * v] *)
Definition vadd (u v : Vector) : Vector :=
  mkVector (x u + x v) (y u + y v) (z u + z v).
Definition vneg (v : Vector) : Vector := mkVector (- x v) (- y v) (- z v).
Definition smul (k : Q) (v : Vector) : Vector :=
  mkVector (k * x v) (k * y v) (k * z v).
Definition vmul (u v : Vector) : Vector :=
  mkVector (x u * x v) (y u * y v) (z u * z v).

(** Equality of vectors as numbers, component by component. *)
Definition veq (u v : Vector) : Prop :=
  x u == x v /\ y u == y v /\ z u == z v.

(** A vector is uniform when its three components are the same number. *)
Definition uniform (v : Vector) : Prop := x v == y v /\ y v == z v.

(** The three axes and the component of a vector on one of them. *)
Inductive Axis : Type := X | Y | Z.

Definition component (a : Axis) (v : Vector) : Q :=
  match a with X => x v | Y => y v | Z => z v end.

(** ** UM.Scene.SceneNode *)

Inductive TransformSpace : Type := Local | Parent | World.

(** The scene node is a collaborator of the operation, and its class is not
    among the sources: the operation is embedded over any node that offers
    the methods it calls.  [N] is the state of one node object and [T] the
    type of its local transformation.  [setScale] is called both with an
    explicit space and without one ([None]: the node's default).
    [getPosition] is not called by the operation; it is what the properties
    about the pivot observe. *)
Class SceneNode (N T : Type) : Type := {
  getLocalTransformation : N -> T;
  setTransformation : N -> T -> N;
  getScale : N -> Vector;
  setScale : N -> Vector -> option TransformSpace -> N;
  scale : N -> Vector -> TransformSpace -> N;
  getPosition : N -> Vector;
  setPosition : N -> Vector -> N
}.

(** ** ScaleOperation *)

(** Identity of a node object ([self._node] is a reference). *)
Definition NodeRef : Type := nat.

(** The key-word arguments of [__init__], each with the default that
    [kwargs.get] gives it. *)
Record Kwargs : Type := mkKwargs {
  set_scale : bool;
  add_scale : bool;
  relative_scale : bool;
  scale_around_point : Vector;
  snap : bool
}.

Definition no_kwargs : Kwargs := mkKwargs false false false Vector0 false.

Record ScaleOperation (T : Type) : Type := mkScaleOperation {
  _node : NodeRef;
  _old_transformation : T;
  _set_scale : bool;
  _add_scale : bool;
  _relative_scale : bool;
  _scale_around_point : Vector;
  _snap : bool;
  _scale : Vector;
  _min_scale : Q
}.

Arguments mkScaleOperation {T}.
Arguments _node {T}.
Arguments _old_transformation {T}.
Arguments _set_scale {T}.
Arguments _add_scale {T}.
Arguments _relative_scale {T}.
Arguments _scale_around_point {T}.
Arguments _snap {T}.
Arguments _scale {T}.
Arguments _min_scale {T}.

(** The four behaviours [redo] chooses between, in the order it tests the
    flags. *)
Inductive Mode : Type :=
  SetAbsolute | AddToCurrent | RelativeToCurrent | DefaultMultiply.

Definition mode {T} (op : ScaleOperation T) : Mode :=
  if _set_scale op then SetAbsolute
  else if _add_scale op then AddToCurrent
  else if _relative_scale op then RelativeToCurrent
  else DefaultMultiply.

(** The assignments [op._scale = v] and [op._old_transformation = t]. *)
Definition with_scale {T} (op : ScaleOperation T) (v : Vector) : ScaleOperation T :=
  mkScaleOperation (_node op) (_old_transformation op) (_set_scale op)
    (_add_scale op) (_relative_scale op) (_scale_around_point op) (_snap op)
    v (_min_scale op).

Definition with_old_transformation {T} (op : ScaleOperation T) (t : T)
  : ScaleOperation T :=
  mkScaleOperation (_node op) t (_set_scale op) (_add_scale op)
    (_relative_scale op) (_scale_around_point op) (_snap op) (_scale op)
    (_min_scale op).

(** *** The monad of the methods *)

Inductive exn : Type := ZeroDivisionError.

Inductive outcome (A : Type) : Type :=
| Returns (a : A)
| Raises (e : exn).
Arguments Returns {A}.
Arguments Raises {A}.

Section Methods.

Variables N T : Type.

(** [self] and the node object [self._node] refers to. *)
Definition St : Type := (ScaleOperation T * N)%type.

Definition M (A : Type) : Type := St -> outcome A * St.

Definition ret {A} (a : A) : M A := fun st => (Returns a, st).

Definition bind {A B} (m : M A) (k : A -> M B) : M B :=
  fun st =>
    match m st with
    | (Returns a, st') => k a st'
    | (Raises e, st') => (Raises e, st')
    end.

Definition raise {A} (e : exn) : M A := fun st => (Raises e, st).

(** The state a method leaves behind, whether it returned or raised. *)
Definition exec {A} (m : M A) (st : St) : St := snd (m st).

(** Read [self]; evaluate a getter of the node; call a mutator of the node;
    assign [self._scale]. *)
Definition self : M (ScaleOperation T) := fun st => (Returns (fst st), st).
Definition node_get {A} (g : N -> A) : M A := fun st => (Returns (g (snd st)), st).
Definition node_call (f : N -> N) : M unit :=
  fun st => (Returns tt, (fst st, f (snd st))).
Definition assign_scale (v : Vector) : M unit :=
  fun st => (Returns tt, (with_scale (fst st) v, snd st)).

(** [a / b] on floats *)
Definition div (a b : Q) : M Q :=
  if Qeq_bool b 0 then raise ZeroDivisionError else ret (a / b).

End Methods.

Arguments ret {N T A}.
Arguments bind {N T A B}.
Arguments raise {N T A}.
Arguments exec {N T A}.
Arguments self {N T}.
Arguments node_get {N T A}.
Arguments node_call {N T}.
Arguments assign_scale {N T}.
Arguments div {N T}.

Declare Scope method_scope.
Delimit Scope method_scope with method.
Notation "v <- m ;; k" := (bind m (fun v => k))
  (at level 61, m at next level, right associativity) : method_scope.
Notation "m ;; k" := (bind m (fun _ => k))
  (at level 61, right associativity) : method_scope.

Local Open Scope method_scope.

Section ScaleOperationMethods.

Context {N T : Type} `{SceneNode N T}.

(** [ScaleOperation.__init__(self, node, scale, **kwargs)]: [r] is the
    identity of the node object and [n] its state at construction. *)
Definition init (r : NodeRef) (n : N) (scale : Vector) (kwargs : Kwargs)
  : ScaleOperation T :=
  {| _node := r;
     _old_transformation := getLocalTransformation n;
     _set_scale := set_scale kwargs;
     _add_scale := add_scale kwargs;
     _relative_scale := relative_scale kwargs;
     _scale_around_point := scale_around_point kwargs;
     _snap := snap kwargs;
     _scale := scale;
     _min_scale := 1 # 100 |}.

(** [ScaleOperation.undo] *)
Definition undo : M N T unit :=
  op <- self ;;
  node_call (fun n => setTransformation n (_old_transformation op)).

(** Lines 51-54 of [redo]: a uniform request is rescaled by the node's
    current proportions, and the result is stored back in [self._scale]. *)
Definition direction_fix : M N T unit :=
  op <- self ;;
  if Qeq_bool (z (_scale op)) (y (_scale op))
     && Qeq_bool (y (_scale op)) (x (_scale op))
  then
    sx <- node_get (fun n => x (getScale n)) ;;
    sy <- node_get (fun n => y (getScale n)) ;;
    sz <- node_get (fun n => z (getScale n)) ;;
    q <- div 1 (sx + sy + sz) ;;
    let ratio := q * 3 in
    s <- node_get getScale ;;
    let ratio_vector := smul ratio s in
    assign_scale (vmul (_scale op) ratio_vector)
  else ret tt.

(** Lines 55-66 of [redo]: the new magnitude of each axis, with the sign of
    the node's current scale on that axis. *)
Definition magnitude (scale_factor : Vector) : M N T Vector :=
  op <- self ;;
  s <- node_get getScale ;;
  let scale_factor :=
    if Qlt_bool 0 (x s)
    then setX scale_factor (Qabs (x s + x (_scale op)))
    else setX scale_factor (- Qabs (x s - x (_scale op))) in
  let scale_factor :=
    if Qlt_bool 0 (y s)
    then setY scale_factor (Qabs (y s + y (_scale op)))
    else setY scale_factor (- Qabs (y s - y (_scale op))) in
  let scale_factor :=
    if Qlt_bool 0 (z s)
    then setZ scale_factor (Qabs (z s + z (_scale op)))
    else setZ scale_factor (- Qabs (z s - z (_scale op))) in
  ret scale_factor.

(** Lines 70-75 of [redo]: each magnitude that is not zero is divided by the
    node's current scale on its axis. *)
Definition normalise (scale_factor current_scale : Vector) : M N T Vector :=
  scale_factor <-
    (if Qne_bool (x scale_factor) 0
     then q <- div (x scale_factor) (x current_scale) ;; ret (setX scale_factor q)
     else ret scale_factor) ;;
  scale_factor <-
    (if Qne_bool (y scale_factor) 0
     then q <- div (y scale_factor) (y current_scale) ;; ret (setY scale_factor q)
     else ret scale_factor) ;;
  if Qne_bool (z scale_factor) 0
  then q <- div (z scale_factor) (z current_scale) ;; ret (setZ scale_factor q)
  else ret scale_factor.

(** Lines 81-87 of [redo]: snap scaling. *)
Definition snap_scale (snap : bool) (scale_factor new_scale : Vector) : Vector :=
  if snap then
    let new_scale :=
      if Qne_bool (x scale_factor) 1
      then setX new_scale (round (x new_scale) 2) else new_scale in
    let new_scale :=
      if Qne_bool (y scale_factor) 1
      then setY new_scale (round (y new_scale) 2) else new_scale in
    if Qne_bool (z scale_factor) 1
    then setZ new_scale (round (z new_scale) 2) else new_scale
  else new_scale.

(** Lines 89-103 of [redo]: the minimum size, first for the axes that are
    not mirrored, then for the mirrored ones. *)
Definition enforce_min_size (min_scale : Q) (new_scale : Vector) : Vector :=
  let new_scale :=
    if Qlt_bool (x new_scale) min_scale && Qle_bool 0 (x new_scale)
    then setX new_scale min_scale else new_scale in
  let new_scale :=
    if Qlt_bool (y new_scale) min_scale && Qle_bool 0 (y new_scale)
    then setY new_scale min_scale else new_scale in
  let new_scale :=
    if Qlt_bool (z new_scale) min_scale && Qle_bool 0 (z new_scale)
    then setZ new_scale min_scale else new_scale in
  let new_scale :=
    if Qlt_bool (- min_scale) (x new_scale) && Qle_bool (x new_scale) 0
    then setX new_scale (- min_scale) else new_scale in
  let new_scale :=
    if Qlt_bool (- min_scale) (y new_scale) && Qle_bool (y new_scale) 0
    then setY new_scale (- min_scale) else new_scale in
  if Qlt_bool (- min_scale) (z new_scale) && Qle_bool (z new_scale) 0
  then setZ new_scale (- min_scale) else new_scale.

(** What lines 90-91 and 98-99 do to one component, the other axes going
    through the same two tests in between. *)
Definition min_size_axis (min_scale q : Q) : Q :=
  let q :=
    if Qlt_bool q min_scale && Qle_bool 0 q then min_scale else q in
  if Qlt_bool (- min_scale) q && Qle_bool q 0 then - min_scale else q.

(** Lines 49-75 of [redo]: the factor handed to the node's [scale]. *)
Definition relative_scale_factor : M N T Vector :=
  let scale_factor := Vector0 in
  direction_fix ;;
  scale_factor <- magnitude scale_factor ;;
  current_scale <- node_get getScale ;;
  normalise scale_factor current_scale.

(** Lines 49-87 of [redo]: the relative branch up to and including the
    snap; it returns [new_scale] as it is before the minimum is enforced. *)
Definition relative_new_scale : M N T Vector :=
  scale_factor <- relative_scale_factor ;;
  op <- self ;;
  node_call (fun n => setPosition n (vneg (_scale_around_point op))) ;;
  node_call (fun n => scale n scale_factor Parent) ;;
  node_call (fun n => setPosition n (_scale_around_point op)) ;;
  new_scale <- node_get getScale ;;
  ret (snap_scale (_snap op) scale_factor new_scale).

(** Lines 48-104 of [redo] *)
Definition redo_relative : M N T unit :=
  new_scale <- relative_new_scale ;;
  op <- self ;;
  let new_scale := enforce_min_size (_min_scale op) new_scale in
  node_call (fun n => setScale n new_scale (Some World)).

(** [ScaleOperation.redo] *)
Definition redo : M N T unit :=
  op <- self ;;
  if _set_scale op then
    node_call (fun n => setScale n (_scale op) (Some World))
  else if _add_scale op then
    s <- node_get getScale ;;
    node_call (fun n => setScale n (vadd s (_scale op)) None)
  else if _relative_scale op then
    redo_relative
  else
    node_call (fun n => scale n (_scale op) World).

(** What [mergeWith] may be handed: another scale operation, or an operation
    of some other class. *)
Inductive Operation : Type :=
| IsScaleOperation (other : ScaleOperation T)
| OtherOperation (class_id : nat).

(** [ScaleOperation.mergeWith(self, other)]; [None] is the [False] the
    source returns when the two cannot be merged.  [n] is the state of the
    node of [self], which the constructor reads. *)
Definition mergeWith (self : ScaleOperation T) (other : Operation) (n : N)
  : option (ScaleOperation T) :=
  match other with
  | OtherOperation _ => None
  | IsScaleOperation other =>
      if negb (Nat.eqb (_node other) (_node self)) then None
      else if _set_scale other && negb (_set_scale self) then None
      else if _add_scale other && negb (_add_scale self) then None
      else
        let op := init (_node self) n (_scale self) no_kwargs in
        Some (with_old_transformation op (_old_transformation other))
  end.

End ScaleOperationMethods.

(** ** A concrete scene node *)

Module RootNode.

(** Modelled from the spec: the local transformation of a node
    ([UM/Scene/SceneNode.py] and the matrix it stores are not among the
    sources).  The spec describes a node as an entity with a local transform
    (position, rotation, scale); this is a node without parent and without
    rotation, so its local transformation is a position and a scale per
    axis, and the local, parent and world frames differ only in their
    origin. *)
Record Transformation : Type := mkTransformation {
  translation : Vector;
  scaling : Vector
}.

(** Modelled from the spec: [SceneNode.scale], the incremental scale, which
    the spec has multiply the node's scale by "a multiplicative scaleFactor
    per axis" in the frame it is given.  In the node's own frame the position
    stays; in the parent's or the world's frame the scale is about that
    frame's origin and moves the position with it. *)
Definition node_scale (n : Transformation) (f : Vector) (space : TransformSpace)
  : Transformation :=
  match space with
  | Local => mkTransformation (translation n) (vmul (scaling n) f)
  | Parent | World =>
      mkTransformation (vmul f (translation n)) (vmul f (scaling n))
  end.

(** Modelled from the spec: the other methods of [SceneNode] the operation
    calls.  [setTransformation] overwrites the whole transform ("fully
    overwritten"), [getLocalTransformation] reads it, [setScale] replaces
    the scale ("straightforward replace") and [setPosition] the position. *)
#[global] Instance node : SceneNode Transformation Transformation := {|
  getLocalTransformation n := n;
  setTransformation _ t := t;
  getScale := scaling;
  setScale n v _ := mkTransformation (translation n) v;
  scale := node_scale;
  getPosition := translation;
  setPosition n v := mkTransformation v (scaling n)
|}.

(** A node at position [p] with scale [s]. *)
Definition at_ (p s : Vector) : Transformation := mkTransformation p s.

End RootNode.

(** ** Vocabulary of the properties *)

Section Vocabulary.

Variables N T : Type.

(** [op'] is [op] up to the one field [redo] assigns, [_scale]. *)
Definition same_command (op op' : ScaleOperation T) : Prop :=
  op' = with_scale op (_scale op').

Definition command_kept (st st' : St N T) : Prop :=
  same_command (fst st) (fst st').

(** The node is left as it was; the operation is left as it was. *)
Definition node_kept (st st' : St N T) : Prop := snd st' = snd st.
Definition self_kept (st st' : St N T) : Prop := fst st' = fst st.

(** The method [m] relates every state it starts in to the state it leaves,
    whether it returns or raises. *)
Definition keeps {A} (R : St N T -> St N T -> Prop) (m : M N T A) : Prop :=
  forall st, R st (exec m st).

(** [m] called [k] times in a row, each call starting in the state the
    previous one left (a caller that goes on after an exception). *)
Definition times {A} (k : nat) (m : M N T A) (st : St N T) : St N T :=
  Nat.iter k (exec m) st.

End Vocabulary.

(** What lines 55-58 make of one axis: the current scale [c] on that axis
    and the request [d] give the magnitude the axis is to have. *)
Definition combine_axis (c d : Q) : Q :=
  if Qlt_bool 0 c then Qabs (c + d) else - Qabs (c - d).

(** The sum of the components, and [f * f * ... * f] ([k] factors,
    component-wise), for the properties that count repeated calls. *)
Definition vsum (v : Vector) : Q := x v + y v + z v.

Fixpoint vpow (f : Vector) (k : nat) : Vector :=
  match k with
  | O => mkVector 1 1 1
  | S k => vmul f (vpow f k)
  end.

Arguments same_command {T}.
Arguments command_kept {N T}.
Arguments node_kept {N T}.
Arguments self_kept {N T}.
Arguments keeps {N T A}.
Arguments times {N T A}.

(** * Properties *)

(** ** Comparisons of numbers *)

Lemma Qlt_bool_iff (a b : Q) : Qlt_bool a b = true <-> a < b.
Proof.
  unfold Qlt_bool. rewrite negb_true_iff. split; intro H.
  - apply Qnot_le_lt. intro L. apply Qle_bool_iff in L. congruence.
  - destruct (Qle_bool b a) eqn:E; [|reflexivity].
    apply Qle_bool_iff in E. exfalso. apply (Qlt_not_le _ _ H E).
Qed.

Lemma Qlt_bool_false_iff (a b : Q) : Qlt_bool a b = false <-> b <= a.
Proof.
  unfold Qlt_bool. rewrite negb_false_iff. apply Qle_bool_iff.
Qed.

Lemma Qle_bool_false_iff (a b : Q) : Qle_bool a b = false <-> b < a.
Proof.
  rewrite <- Qlt_bool_iff. unfold Qlt_bool.
  destruct (Qle_bool a b); simpl; intuition congruence.
Qed.

Lemma Qne_bool_iff (a b : Q) : Qne_bool a b = true <-> ~ a == b.
Proof.
  unfold Qne_bool. rewrite negb_true_iff. split; intro H.
  - intro E. apply Qeq_bool_iff in E. congruence.
  - destruct (Qeq_bool a b) eqn:E; [|reflexivity].
    apply Qeq_bool_iff in E. contradiction.
Qed.

Lemma Qne_bool_false_iff (a b : Q) : Qne_bool a b = false <-> a == b.
Proof.
  unfold Qne_bool. rewrite negb_false_iff. apply Qeq_bool_iff.
Qed.


(** ** What the methods leave alone *)

Lemma with_scale_same {T} (op : ScaleOperation T) : with_scale op (_scale op) = op.
Proof. destruct op; reflexivity. Qed.

Lemma same_command_refl {T} (op : ScaleOperation T) : same_command op op.
Proof. unfold same_command. symmetry. apply with_scale_same. Qed.

Lemma same_command_trans {T} (a b c : ScaleOperation T) :
  same_command a b -> same_command b c -> same_command a c.
Proof.
  unfold same_command. intros Hab Hbc. rewrite Hbc at 1. rewrite Hab.
  reflexivity.
Qed.

Lemma same_command_old {T} (a b : ScaleOperation T) :
  same_command a b -> _old_transformation b = _old_transformation a.
Proof. unfold same_command. intros ->. reflexivity. Qed.

Section Frame.

Context {N T : Type} `{SceneNode N T}.

Variable R : St N T -> St N T -> Prop.
Hypothesis R_refl : forall st, R st st.
Hypothesis R_trans : forall a b c, R a b -> R b c -> R a c.

Lemma keeps_ret {A} (a : A) : keeps R (ret a).
Proof. intro st. apply R_refl. Qed.

Lemma keeps_raise {A} (e : exn) : keeps R (raise (A := A) e).
Proof. intro st. apply R_refl. Qed.

Lemma keeps_self : keeps R self.
Proof. intro st. apply R_refl. Qed.

Lemma keeps_node_get {A} (g : N -> A) : keeps R (node_get g).
Proof. intro st. apply R_refl. Qed.

Lemma keeps_div (a b : Q) : keeps R (div a b).
Proof. unfold div. destruct (Qeq_bool b 0); [apply keeps_raise | apply keeps_ret]. Qed.

Lemma keeps_bind {A B} (m : M N T A) (k : A -> M N T B) :
  keeps R m -> (forall a, keeps R (k a)) -> keeps R (bind m k).
Proof.
  intros Hm Hk st. unfold exec, bind.
  specialize (Hm st). unfold exec in Hm.
  destruct (m st) as [[a | e] st1]; simpl in *.
  - eapply R_trans; [exact Hm | apply Hk].
  - exact Hm.
Qed.

Lemma keeps_if {A} (b : bool) (m1 m2 : M N T A) :
  keeps R m1 -> keeps R m2 -> keeps R (if b then m1 else m2).
Proof. destruct b; auto. Qed.

Lemma keeps_times {A} (m : M N T A) (k : nat) (st : St N T) :
  keeps R m -> R st (times k m st).
Proof.
  intro Hm. induction k as [| k IH]; simpl.
  - apply R_refl.
  - eapply R_trans; [exact IH | apply Hm].
Qed.

End Frame.

Section Kept.

Context {N T : Type} `{SceneNode N T}.

Lemma command_kept_refl (st : St N T) : command_kept st st.
Proof. apply same_command_refl. Qed.

Lemma command_kept_trans (a b c : St N T) :
  command_kept a b -> command_kept b c -> command_kept a c.
Proof. apply same_command_trans. Qed.

Lemma node_kept_refl (st : St N T) : node_kept st st.
Proof. reflexivity. Qed.

Lemma node_kept_trans (a b c : St N T) :
  node_kept a b -> node_kept b c -> node_kept a c.
Proof. unfold node_kept. congruence. Qed.

Lemma self_kept_refl (st : St N T) : self_kept st st.
Proof. reflexivity. Qed.

Lemma self_kept_trans (a b c : St N T) :
  self_kept a b -> self_kept b c -> self_kept a c.
Proof. unfold self_kept. congruence. Qed.

Lemma node_call_keeps_command (f : N -> N) :
  keeps (T := T) command_kept (node_call f).
Proof. intro st. apply same_command_refl. Qed.

Lemma node_call_keeps_self (f : N -> N) :
  keeps (T := T) self_kept (node_call f).
Proof. intro st. reflexivity. Qed.

Lemma assign_scale_keeps_command (v : Vector) :
  keeps (N := N) (T := T) command_kept (assign_scale v).
Proof. intro st. reflexivity. Qed.

Lemma assign_scale_keeps_node (v : Vector) :
  keeps (N := N) (T := T) node_kept (assign_scale v).
Proof. intro st. reflexivity. Qed.

End Kept.

(** One step of a proof that a method keeps the command, the node, or
    the whole operation. *)
Ltac command_step :=
  first
    [ apply (keeps_bind command_kept command_kept_trans); [ | intro ]
    | apply keeps_if
    | apply (keeps_ret command_kept command_kept_refl)
    | apply (keeps_self command_kept command_kept_refl)
    | apply (keeps_node_get command_kept command_kept_refl)
    | apply (keeps_div command_kept command_kept_refl)
    | apply node_call_keeps_command
    | apply assign_scale_keeps_command ].

Ltac node_step :=
  first
    [ apply (keeps_bind node_kept node_kept_trans); [ | intro ]
    | apply keeps_if
    | apply (keeps_ret node_kept node_kept_refl)
    | apply (keeps_self node_kept node_kept_refl)
    | apply (keeps_node_get node_kept node_kept_refl)
    | apply (keeps_div node_kept node_kept_refl)
    | apply assign_scale_keeps_node ].

Ltac self_step :=
  first
    [ apply (keeps_bind self_kept self_kept_trans); [ | intro ]
    | apply keeps_if
    | apply (keeps_ret self_kept self_kept_refl)
    | apply (keeps_self self_kept self_kept_refl)
    | apply (keeps_node_get self_kept self_kept_refl)
    | apply (keeps_div self_kept self_kept_refl)
    | apply node_call_keeps_self ].

Section RedoKeeps.

Context {N T : Type} `{SceneNode N T}.

Lemma direction_fix_keeps : keeps command_kept direction_fix.
Proof. unfold direction_fix. repeat command_step. Qed.

Lemma magnitude_keeps (f : Vector) : keeps command_kept (magnitude f).
Proof. unfold magnitude. repeat command_step. Qed.

Lemma normalise_keeps (f c : Vector) :
  keeps (N := N) (T := T) command_kept (normalise f c).
Proof. unfold normalise. repeat command_step. Qed.

Lemma relative_scale_factor_keeps : keeps command_kept relative_scale_factor.
Proof.
  unfold relative_scale_factor.
  command_step; [apply direction_fix_keeps | ].
  command_step; [apply magnitude_keeps | ].
  command_step; [repeat command_step | apply normalise_keeps].
Qed.

Lemma relative_new_scale_keeps : keeps command_kept relative_new_scale.
Proof.
  unfold relative_new_scale.
  command_step; [apply relative_scale_factor_keeps | repeat command_step].
Qed.

Lemma redo_keeps : keeps command_kept redo.
Proof.
  unfold redo, redo_relative.
  command_step; [repeat command_step | ].
  repeat apply keeps_if; repeat command_step.
Qed.

(** The factor is computed without touching the node. *)
Lemma relative_scale_factor_keeps_node : keeps node_kept relative_scale_factor.
Proof.
  unfold relative_scale_factor, direction_fix, magnitude, normalise.
  repeat node_step.
Qed.

Lemma undo_run (st : St N T) :
  undo st =
  (Returns tt, (fst st, setTransformation (snd st) (_old_transformation (fst st)))).
Proof. reflexivity. Qed.

Lemma redos_keep_snapshot (k : nat) (st : St N T) :
  _old_transformation (fst (times k redo st)) = _old_transformation (fst st).
Proof.
  apply same_command_old.
  apply (keeps_times command_kept command_kept_refl command_kept_trans redo k st).
  apply redo_keeps.
Qed.

End RedoKeeps.

(** ** Undo *)

Section Undo.

Context {N T : Type} `{SceneNode N T}.

(** The node hands back the transformation it was last given. *)
Hypothesis get_set_transformation :
  forall (n : N) (t : T), getLocalTransformation (setTransformation n t) = t.

(** Giving the node the same transformation twice is giving it once. *)
Hypothesis set_set_transformation :
  forall (n : N) (t : T),
    setTransformation (setTransformation n t) t = setTransformation n t.

(** C1. Construct, redo, undo: whatever the mode and whether [redo] returned
    or raised, [undo] returns and the node's local transformation is the one
    read at construction, which is the snapshot the operation holds. *)
Theorem undo_after_redo_restores_snapshot
  (r : NodeRef) (n0 : N) (v : Vector) (kw : Kwargs) :
  let op := init r n0 v kw in
  let st := exec redo (op, n0) in
  fst (undo st) = Returns tt /\
  getLocalTransformation (snd (exec undo st)) = getLocalTransformation n0 /\
  getLocalTransformation (snd (exec undo st)) = _old_transformation op.
Proof.
  intros op st. split; [reflexivity |].
  assert (E : getLocalTransformation (snd (exec undo st)) = _old_transformation op).
  { unfold exec. rewrite undo_run. simpl. rewrite get_set_transformation.
    unfold st. apply (redos_keep_snapshot 1 (op, n0)). }
  split; [rewrite E; reflexivity | exact E].
Qed.

Lemma undo_again (st : St N T) : exec undo (exec undo st) = exec undo st.
Proof.
  unfold exec. rewrite !undo_run. simpl.
  rewrite set_set_transformation. reflexivity.
Qed.

(** C10. However many times [redo] ran before, in whatever mode and from
    whatever node state, any number [k + 1] of consecutive calls of [undo]
    leaves the operation and the node exactly as one call does, and the
    node's local transformation is then the snapshot taken at construction. *)
Theorem undo_idempotent
  (r : NodeRef) (n0 n : N) (v : Vector) (kw : Kwargs) (redos k : nat) :
  let op := init r n0 v kw in
  let st := times redos redo (op, n) in
  times (S k) undo st = exec undo st /\
  getLocalTransformation (snd (times (S k) undo st)) = _old_transformation op /\
  _old_transformation op = getLocalTransformation n0.
Proof.
  intros op st.
  assert (E : times (S k) undo st = exec undo st).
  { induction k as [| k IH]; [reflexivity |].
    change (times (S (S k)) undo st) with (exec undo (times (S k) undo st)).
    rewrite IH. apply undo_again. }
  split; [exact E |]. split; [| reflexivity].
  rewrite E. unfold exec. rewrite undo_run. simpl.
  rewrite get_set_transformation. unfold st.
  apply (redos_keep_snapshot redos (op, n)).
Qed.

End Undo.

(** On the concrete node, at a relative operation with pivot and snap. *)
Example undo_after_redo_restores_snapshot_witness :
  let n0 := RootNode.at_ (mkVector 5 0 0) (mkVector 2 1 1) in
  let kw := mkKwargs false false true (mkVector 1 1 1) true in
  let st := exec redo (init 0%nat n0 (mkVector 1 1 1) kw, n0) in
  (forall n t : RootNode.Transformation,
     getLocalTransformation (setTransformation n t) = t) /\
  fst (undo st) = Returns tt /\
  getLocalTransformation (snd (exec undo st)) = getLocalTransformation n0 /\
  getLocalTransformation (snd (exec undo st)) = n0.
Proof.
  intros n0 kw st.
  split; [intros n t; reflexivity |].
  exact (undo_after_redo_restores_snapshot (fun n t => eq_refl)
           0%nat n0 (mkVector 1 1 1) kw).
Defined.

(** On the concrete node, two additive redos and then three undos. *)
Example undo_idempotent_witness :
  let n0 := RootNode.at_ (mkVector 5 0 0) (mkVector 2 1 1) in
  let n := RootNode.at_ (mkVector 1 2 3) (mkVector 1 1 1) in
  let kw := mkKwargs false true false Vector0 false in
  let st := times 2 redo (init 0%nat n0 (mkVector 1 0 0) kw, n) in
  (forall n t : RootNode.Transformation,
     getLocalTransformation (setTransformation n t) = t) /\
  (forall n t : RootNode.Transformation,
     setTransformation (setTransformation n t) t = setTransformation n t) /\
  times 3 undo st = exec undo st /\
  getLocalTransformation (snd (times 3 undo st)) = n0 /\
  n0 = getLocalTransformation n0.
Proof.
  intros n0 n kw st.
  split; [intros m t; reflexivity |].
  split; [intros m t; reflexivity |].
  exact (undo_idempotent (fun m t => eq_refl) (fun m t => eq_refl)
           0%nat n0 n (mkVector 1 0 0) kw 2 2).
Defined.

(** ** Vectors up to equality of numbers *)

Lemma veq_refl (u : Vector) : veq u u.
Proof. repeat split; reflexivity. Qed.

Lemma veq_sym (u v : Vector) : veq u v -> veq v u.
Proof. intros (Hx & Hy & Hz). repeat split; symmetry; assumption. Qed.

Lemma veq_trans (u v w : Vector) : veq u v -> veq v w -> veq u w.
Proof.
  intros (Hx & Hy & Hz) (Hx' & Hy' & Hz').
  repeat split; etransitivity; eassumption.
Qed.

#[global] Instance veq_equivalence : Equivalence veq.
Proof.
  constructor; [exact veq_refl | exact veq_sym | exact veq_trans].
Qed.

#[global] Instance vadd_proper : Proper (veq ==> veq ==> veq) vadd.
Proof.
  intros u u' (Hx & Hy & Hz) v v' (Hx' & Hy' & Hz').
  unfold veq, vadd; simpl. rewrite Hx, Hy, Hz, Hx', Hy', Hz'.
  repeat split; reflexivity.
Qed.

Lemma vadd_smul_succ (s v : Vector) (k : nat) :
  veq (vadd (vadd s (smul (inject_Z (Z.of_nat k)) v)) v)
      (vadd s (smul (inject_Z (Z.of_nat (S k))) v)).
Proof.
  rewrite Nat2Z.inj_succ. unfold Z.succ.
  unfold veq, vadd, smul; simpl. rewrite inject_Z_plus.
  repeat split; ring.
Qed.

(** ** Adding to the current scale *)

Section AddToCurrent.

Context {N T : Type} `{SceneNode N T}.

(** The node's scale is the one it was last given. *)
Hypothesis get_set_scale :
  forall (n : N) (v : Vector), getScale (setScale n v None) = v.

Lemma redo_add_run (op : ScaleOperation T) (n : N) :
  mode op = AddToCurrent ->
  redo (op, n) =
  (Returns tt, (op, setScale n (vadd (getScale n) (_scale op)) None)).
Proof.
  unfold mode, redo, bind, self. simpl.
  destruct (_set_scale op); [discriminate |].
  destruct (_add_scale op); [reflexivity |].
  destruct (_relative_scale op); discriminate.
Qed.

Lemma redo_add_times (op : ScaleOperation T) (n : N) (k : nat) :
  mode op = AddToCurrent ->
  fst (times k redo (op, n)) = op /\
  veq (getScale (snd (times k redo (op, n))))
      (vadd (getScale n) (smul (inject_Z (Z.of_nat k)) (_scale op))).
Proof.
  intro Hm. induction k as [| k [IHop IHs]].
  - split; [reflexivity |]. simpl.
    unfold veq, vadd, smul; simpl. repeat split; ring.
  - change (times (S k) redo (op, n)) with (exec redo (times k redo (op, n))).
    destruct (times k redo (op, n)) as [op' n'] eqn:E. simpl in IHop, IHs.
    subst op'. unfold exec. rewrite (redo_add_run op n' Hm). simpl.
    split; [reflexivity |]. rewrite get_set_scale.
    rewrite IHs. apply vadd_smul_succ.
Qed.

(** C9. In the additive mode each [redo] returns, leaves the operation as it
    is and gives the node exactly its current scale plus the operation's
    scale vector (no minimum, no snap); [k] calls in a row therefore leave
    the scale at the initial one plus [k] times the vector, and a second
    call changes the scale again unless the vector is zero. *)
Theorem redo_add_accumulates (op : ScaleOperation T) (n : N) (k : nat) :
  mode op = AddToCurrent ->
  redo (op, n) =
    (Returns tt, (op, setScale n (vadd (getScale n) (_scale op)) None)) /\
  getScale (snd (exec redo (op, n))) = vadd (getScale n) (_scale op) /\
  veq (getScale (snd (times k redo (op, n))))
      (vadd (getScale n) (smul (inject_Z (Z.of_nat k)) (_scale op))) /\
  (~ veq (_scale op) Vector0 ->
   ~ veq (getScale (snd (times 2 redo (op, n))))
         (getScale (snd (times 1 redo (op, n))))).
Proof.
  intro Hm. split; [apply redo_add_run; exact Hm |].
  split.
  { unfold exec. rewrite (redo_add_run op n Hm). simpl. apply get_set_scale. }
  split; [apply redo_add_times; exact Hm |].
  intros Hv Heq. apply Hv.
  destruct (redo_add_times op n 2 Hm) as [_ H2].
  destruct (redo_add_times op n 1 Hm) as [_ H1].
  rewrite H2, H1 in Heq. destruct Heq as (Hx & Hy & Hz).
  change (inject_Z (Z.of_nat 2)) with 2 in *.
  change (inject_Z (Z.of_nat 1)) with 1 in *.
  unfold veq, vadd, smul, Vector0 in *; cbn [x y z] in *.
  clear H1 H2 Hv. repeat split; lra.
Qed.

End AddToCurrent.

(** On the concrete node: three additive redos from scale (1, 1, 1). *)
Example redo_add_accumulates_witness :
  let n := RootNode.at_ (mkVector 5 0 0) (mkVector 1 1 1) in
  let op := init 0%nat n (mkVector (1 # 2) 0 (-1)) (mkKwargs false true false Vector0 true) in
  mode op = AddToCurrent /\
  (forall (m : RootNode.Transformation) v, getScale (setScale m v None) = v) /\
  veq (getScale (snd (times 3 redo (op, n))))
      (vadd (getScale n) (smul (inject_Z (Z.of_nat 3)) (_scale op))).
Proof.
  intros n op.
  split; [reflexivity |].
  split; [intros m v; reflexivity |].
  exact (proj1 (proj2 (proj2
           (redo_add_accumulates (fun m v => eq_refl) op n 3 eq_refl)))).
Defined.

(** ** The relative branch, step by step *)

Section RelativeRun.

Context {N T : Type} `{SceneNode N T}.

Lemma bind_returns {A B} (m : M N T A) (k : A -> M N T B) st b st' :
  bind m k st = (Returns b, st') ->
  exists a st1, m st = (Returns a, st1) /\ k a st1 = (Returns b, st').
Proof.
  unfold bind. destruct (m st) as [[a | e] st1]; intro E.
  - exists a, st1. split; [reflexivity | exact E].
  - discriminate.
Qed.

Lemma relative_flags (op : ScaleOperation T) :
  mode op = RelativeToCurrent ->
  _set_scale op = false /\ _add_scale op = false /\ _relative_scale op = true.
Proof.
  unfold mode.
  destruct (_set_scale op), (_add_scale op), (_relative_scale op);
    intro E; try discriminate; auto.
Qed.

Lemma redo_relative_branch (op : ScaleOperation T) (n : N) :
  mode op = RelativeToCurrent -> redo (op, n) = redo_relative (op, n).
Proof.
  intro Hm. destruct (relative_flags op Hm) as (Hs & Ha & Hr).
  unfold redo, bind, self. simpl. rewrite Hs, Ha, Hr. reflexivity.
Qed.

(** The node after lines 77-79: moved to minus the pivot, scaled in the
    parent's frame, moved to the pivot. *)
Lemma relative_new_scale_returns (op : ScaleOperation T) (n : N) pre st1 :
  relative_new_scale (op, n) = (Returns pre, st1) ->
  exists f op1,
    relative_scale_factor (op, n) = (Returns f, (op1, n)) /\
    same_command op op1 /\
    let p := _scale_around_point op in
    let n1 := setPosition (scale (setPosition n (vneg p)) f Parent) p in
    st1 = (op1, n1) /\
    pre = snap_scale (_snap op) f (getScale n1).
Proof.
  unfold relative_new_scale. intro E.
  apply bind_returns in E. destruct E as (f & [op1 n'] & Ef & E).
  pose proof (relative_scale_factor_keeps (op, n)) as Hc.
  pose proof (relative_scale_factor_keeps_node (op, n)) as Hn.
  unfold exec in Hc, Hn. rewrite Ef in Hc, Hn.
  unfold command_kept, node_kept in Hc, Hn. simpl in Hc, Hn. subst n'.
  exists f, op1. split; [exact Ef |]. split; [exact Hc |].
  unfold bind, self, node_call, node_get, ret in E. simpl in E.
  unfold same_command in Hc.
  assert (Hp : _scale_around_point op1 = _scale_around_point op)
    by (rewrite Hc; reflexivity).
  assert (Hs : _snap op1 = _snap op) by (rewrite Hc; reflexivity).
  rewrite Hp, Hs in E. inversion E. split; reflexivity.
Qed.

Lemma redo_relative_returns (op : ScaleOperation T) (n : N) st' :
  mode op = RelativeToCurrent ->
  redo (op, n) = (Returns tt, st') ->
  exists f op1,
    relative_scale_factor (op, n) = (Returns f, (op1, n)) /\
    same_command op op1 /\
    let p := _scale_around_point op in
    let n1 := setPosition (scale (setPosition n (vneg p)) f Parent) p in
    let pre := snap_scale (_snap op) f (getScale n1) in
    relative_new_scale (op, n) = (Returns pre, (op1, n1)) /\
    st' = (op1, setScale n1 (enforce_min_size (_min_scale op) pre) (Some World)).
Proof.
  intros Hm E. rewrite (redo_relative_branch op n Hm) in E.
  unfold redo_relative in E.
  apply bind_returns in E. destruct E as (pre & st1 & Epre & E).
  destruct (relative_new_scale_returns op n pre st1 Epre)
    as (f & op1 & Ef & Hc & Hst & Hpre).
  exists f, op1. split; [exact Ef |]. split; [exact Hc |].
  intros p n1 pre'. subst st1. fold p n1 pre' in Hpre. subst pre.
  split; [exact Epre |].
  unfold bind, self, node_call in E. simpl in E.
  assert (Hmin : _min_scale op1 = _min_scale op)
    by (unfold same_command in Hc; rewrite Hc; reflexivity).
  rewrite Hmin in E. inversion E. reflexivity.
Qed.

End RelativeRun.

(** ** The minimum size *)

Lemma x_after_setX (c : bool) (v : Vector) (q : Q) :
  x (if c then setX v q else v) = if c then q else x v.
Proof. destruct c; reflexivity. Qed.

Lemma x_after_setY (c : bool) (v : Vector) (q : Q) :
  x (if c then setY v q else v) = x v.
Proof. destruct c; reflexivity. Qed.

Lemma x_after_setZ (c : bool) (v : Vector) (q : Q) :
  x (if c then setZ v q else v) = x v.
Proof. destruct c; reflexivity. Qed.

Lemma y_after_setX (c : bool) (v : Vector) (q : Q) :
  y (if c then setX v q else v) = y v.
Proof. destruct c; reflexivity. Qed.

Lemma y_after_setY (c : bool) (v : Vector) (q : Q) :
  y (if c then setY v q else v) = if c then q else y v.
Proof. destruct c; reflexivity. Qed.

Lemma y_after_setZ (c : bool) (v : Vector) (q : Q) :
  y (if c then setZ v q else v) = y v.
Proof. destruct c; reflexivity. Qed.

Lemma z_after_setX (c : bool) (v : Vector) (q : Q) :
  z (if c then setX v q else v) = z v.
Proof. destruct c; reflexivity. Qed.

Lemma z_after_setY (c : bool) (v : Vector) (q : Q) :
  z (if c then setY v q else v) = z v.
Proof. destruct c; reflexivity. Qed.

Lemma z_after_setZ (c : bool) (v : Vector) (q : Q) :
  z (if c then setZ v q else v) = if c then q else z v.
Proof. destruct c; reflexivity. Qed.

Ltac components :=
  repeat first
    [ rewrite x_after_setX | rewrite x_after_setY | rewrite x_after_setZ
    | rewrite y_after_setX | rewrite y_after_setY | rewrite y_after_setZ
    | rewrite z_after_setX | rewrite z_after_setY | rewrite z_after_setZ ].

(** Each component goes through its own two tests and no other. *)
Lemma enforce_min_size_component (a : Axis) (m : Q) (v : Vector) :
  component a (enforce_min_size m v) = min_size_axis m (component a v).
Proof.
  destruct a; unfold component, enforce_min_size, min_size_axis;
    components; reflexivity.
Qed.

Lemma min_size_axis_cases (m q : Q) :
  0 < m ->
  (0 <= q /\ q < m -> min_size_axis m q = m) /\
  (- m < q /\ q < 0 -> min_size_axis m q = - m) /\
  (m <= q \/ q <= - m -> min_size_axis m q = q).
Proof.
  intro Hm. unfold min_size_axis.
  destruct (Qlt_bool q m && Qle_bool 0 q) eqn:E1.
  - apply andb_true_iff in E1. destruct E1 as [L1 L2].
    apply Qlt_bool_iff in L1. apply Qle_bool_iff in L2.
    assert (E2 : Qlt_bool (- m) m && Qle_bool m 0 = false).
    { apply andb_false_iff. right. apply Qle_bool_false_iff. exact Hm. }
    rewrite E2. repeat split; intros; try reflexivity; exfalso; lra.
  - apply andb_false_iff in E1.
    destruct (Qlt_bool (- m) q && Qle_bool q 0) eqn:E2.
    + apply andb_true_iff in E2. destruct E2 as [L1 L2].
      apply Qlt_bool_iff in L1. apply Qle_bool_iff in L2.
      repeat split; intros; try reflexivity; exfalso;
        destruct E1 as [E1 | E1];
        [ apply Qlt_bool_false_iff in E1 | apply Qle_bool_false_iff in E1
        | apply Qlt_bool_false_iff in E1 | apply Qle_bool_false_iff in E1 ];
        lra.
    + apply andb_false_iff in E2.
      repeat split; intros; try reflexivity; exfalso;
        destruct E1 as [E1 | E1];
        [ apply Qlt_bool_false_iff in E1 | apply Qle_bool_false_iff in E1
        | apply Qlt_bool_false_iff in E1 | apply Qle_bool_false_iff in E1 ];
        destruct E2 as [E2 | E2];
        try (apply Qlt_bool_false_iff in E2); try (apply Qle_bool_false_iff in E2);
        lra.
Qed.

Lemma min_size_axis_bounds (m q : Q) :
  0 < m ->
  m <= Qabs (min_size_axis m q) /\
  (0 < q -> 0 < min_size_axis m q) /\
  (q < 0 -> min_size_axis m q < 0).
Proof.
  intro Hm. destruct (min_size_axis_cases m q Hm) as (Hpos & Hneg & Hout).
  destruct (Qlt_le_dec q 0) as [Lq | Lq].
  - destruct (Qlt_le_dec (- m) q) as [Lm | Lm].
    + rewrite Hneg by (split; assumption).
      split; [| split; intros; lra].
      apply Qabs_case; intros; lra.
    + rewrite Hout by (right; exact Lm).
      split; [| split; intros; lra].
      apply Qabs_case; intros; lra.
  - destruct (Qlt_le_dec q m) as [Lm | Lm].
    + rewrite Hpos by (split; assumption).
      split; [| split; intros; lra].
      apply Qabs_case; intros; lra.
    + rewrite Hout by (left; exact Lm).
      split; [| split; intros; lra].
      apply Qabs_case; intros; lra.
Qed.

Section MinimumScale.

Context {N T : Type} `{SceneNode N T}.

(** The node's scale is the one it was last given in the world's frame. *)
Hypothesis get_set_scale_world :
  forall (n : N) (v : Vector), getScale (setScale n v (Some World)) = v.


End MinimumScale.

(** Decides a closed comparison of rationals. *)
Ltac Qdecide :=
  vm_compute; first [reflexivity | discriminate | intro; discriminate].



(** ** The pivot *)

Section Pivot.

Context {N T : Type} `{SceneNode N T}.

(** The node is where it was last put, and giving it a scale in the world's
    frame does not move it. *)
Hypothesis get_set_position :
  forall (n : N) (p : Vector), getPosition (setPosition n p) = p.
Hypothesis set_scale_keeps_position :
  forall (n : N) (v : Vector),
    getPosition (setScale n v (Some World)) = getPosition n.

(** What lines 77-79 and 104 do to the node.  A relative [redo] that returns
    has put the node at minus the pivot, scaled it by the factor in the
    parent's frame, put it at the pivot and given it the final scale; the
    node's position is then the pivot itself, wherever the node was
    before. *)
Theorem relative_redo_puts_node_at_pivot
  (op : ScaleOperation T) (n : N) (st' : St N T) :
  mode op = RelativeToCurrent ->
  redo (op, n) = (Returns tt, st') ->
  let p := _scale_around_point op in
  exists f new_scale : Vector,
    fst (relative_scale_factor (op, n)) = Returns f /\
    snd st' =
      setScale (setPosition (scale (setPosition n (vneg p)) f Parent) p)
        new_scale (Some World) /\
    getPosition (snd st') = p.
Proof.
  intros Hm E p.
  destruct (redo_relative_returns op n st' Hm E)
    as (f & op1 & Ef & Hc & Epre & Hst).
  cbv zeta in Epre, Hst. fold p in Hst.
  exists f. eexists. split; [rewrite Ef; reflexivity |].
  rewrite Hst. simpl. split; [reflexivity |].
  rewrite set_scale_keeps_position. apply get_set_position.
Qed.

End Pivot.

(** On the concrete node: a node at (5, 0, 0) scaled about (1, 2, 3). *)
Example relative_redo_puts_node_at_pivot_witness :
  let n := RootNode.at_ (mkVector 5 0 0) (mkVector 1 1 1) in
  let p := mkVector 1 2 3 in
  let op := init 0%nat n (mkVector 1 0 0) (mkKwargs false false true p false) in
  let st' := snd (redo (op, n)) in
  (forall (m : RootNode.Transformation) q, getPosition (setPosition m q) = q) /\
  (forall (m : RootNode.Transformation) v,
     getPosition (setScale m v (Some World)) = getPosition m) /\
  mode op = RelativeToCurrent /\
  redo (op, n) = (Returns tt, st') /\
  exists f new_scale : Vector,
    fst (relative_scale_factor (op, n)) = Returns f /\
    snd st' =
      setScale (setPosition (scale (setPosition n (vneg p)) f Parent) p)
        new_scale (Some World) /\
    getPosition (snd st') = p.
Proof.
  intros n p op st'.
  split; [intros m q; reflexivity |].
  split; [intros m v; reflexivity |].
  split; [reflexivity |].
  split; [vm_compute; reflexivity |].
  exact (relative_redo_puts_node_at_pivot (fun m q => eq_refl)
           (fun m v => eq_refl) op n st' eq_refl eq_refl).
Defined.

(** C6, what the code does. The comment of line 77 has the pivot shifted to
    the origin and shifted back, which would keep the node where it is
    relative to the pivot; lines 77 and 79 call [setPosition], which places
    the node.  A node at (5, 0, 0) scaled about the default pivot, the
    origin, ends at the origin: its position relative to the pivot was
    (5, 0, 0) and is (0, 0, 0) after [redo]. *)
Example relative_redo_discards_offset_from_pivot :
  let n := RootNode.at_ (mkVector 5 0 0) (mkVector 1 1 1) in
  let p := Vector0 in
  let op := init 0%nat n (mkVector 1 0 0) (mkKwargs false false true p false) in
  exists st' : St RootNode.Transformation RootNode.Transformation,
    redo (op, n) = (Returns tt, st') /\
    veq (vadd (getPosition n) (vneg p)) (mkVector 5 0 0) /\
    veq (vadd (getPosition (snd st')) (vneg p)) Vector0 /\
    ~ veq (vadd (getPosition (snd st')) (vneg p)) (vadd (getPosition n) (vneg p)).
Proof.
  intros n p op. eexists. split; [vm_compute; reflexivity |].
  split; [repeat split; Qdecide |].
  split; [repeat split; Qdecide |].
  intros (Hx & _). revert Hx. Qdecide.
Qed.

(** ** The direction fix of a uniform request *)

Section DirectionFix.

Context {N T : Type} `{SceneNode N T}.

Lemma exec_after {A B} (R : St N T -> St N T -> Prop)
  (m : M N T A) (k : A -> M N T B) (st : St N T) :
  (forall st, R st st) -> (forall a, keeps R (k a)) ->
  R (exec m st) (exec (bind m k) st).
Proof.
  intros Hrefl Hk. unfold exec, bind.
  destruct (m st) as [[a | e] st1]; simpl.
  - apply Hk.
  - apply Hrefl.
Qed.

(** After [direction_fix], nothing in [redo] assigns a field of [self]. *)
Lemma redo_relative_self (st : St N T) :
  fst (exec redo_relative st) = fst (exec direction_fix st).
Proof.
  unfold redo_relative, relative_new_scale, relative_scale_factor.
  eapply (self_kept_trans (exec direction_fix st)).
  2: { apply (exec_after self_kept); [exact self_kept_refl |].
       intro a. repeat self_step. }
  eapply (self_kept_trans (exec direction_fix st)).
  2: { apply (exec_after self_kept); [exact self_kept_refl |].
       intro a. repeat self_step. }
  apply (exec_after self_kept); [exact self_kept_refl |].
  intro a. unfold magnitude, normalise. repeat self_step.
Qed.

Lemma direction_fix_uniform (op : ScaleOperation T) (n : N) :
  z (_scale op) == y (_scale op) ->
  y (_scale op) == x (_scale op) ->
  let sum := x (getScale n) + y (getScale n) + z (getScale n) in
  ~ sum == 0 ->
  direction_fix (op, n) =
  (Returns tt,
   (with_scale op (vmul (_scale op) (smul (1 / sum * 3) (getScale n))), n)).
Proof.
  intros Hzy Hyx sum Hsum.
  apply Qeq_bool_iff in Hzy. apply Qeq_bool_iff in Hyx.
  apply Qne_bool_iff in Hsum. unfold Qne_bool in Hsum.
  apply negb_true_iff in Hsum.
  unfold direction_fix, bind, self, node_get, div, assign_scale. simpl.
  rewrite Hzy, Hyx. simpl. fold sum. rewrite Hsum. reflexivity.
Qed.

Lemma direction_fix_not_uniform (op : ScaleOperation T) (n : N) :
  ~ (z (_scale op) == y (_scale op) /\ y (_scale op) == x (_scale op)) ->
  direction_fix (op, n) = (Returns tt, (op, n)).
Proof.
  intro Hn. unfold direction_fix, bind, self. simpl.
  destruct (Qeq_bool (z (_scale op)) (y (_scale op))) eqn:E1;
    destruct (Qeq_bool (y (_scale op)) (x (_scale op))) eqn:E2;
    try reflexivity.
  exfalso. apply Hn. split; apply Qeq_bool_iff; assumption.
Qed.

(** The scale vector [redo] leaves in [self._scale] for a uniform request. *)
Lemma redo_uniform_scale (op : ScaleOperation T) (n : N) :
  mode op = RelativeToCurrent ->
  z (_scale op) == y (_scale op) ->
  y (_scale op) == x (_scale op) ->
  let sum := x (getScale n) + y (getScale n) + z (getScale n) in
  ~ sum == 0 ->
  veq (_scale (fst (exec redo (op, n))))
      (vmul (_scale op) (smul (3 / sum) (getScale n))).
Proof.
  intros Hm Hzy Hyx sum Hsum.
  unfold exec. rewrite (redo_relative_branch op n Hm).
  fold (exec redo_relative (op, n)). rewrite redo_relative_self.
  unfold exec. rewrite (direction_fix_uniform op n Hzy Hyx Hsum). simpl.
  fold sum. unfold veq, vmul, smul; simpl.
  repeat split; field; exact Hsum.
Qed.

End DirectionFix.

(** C7, as the code has it. On a node whose current scale (sx, sy, sz) does
    not sum to zero, a relative [redo] whose scale vector has three equal
    components replaces that vector by its component-wise product with
    (3 / (sx + sy + sz)) * (sx, sy, sz), and works from the replaced
    vector: from scale (2, 1, 1) the uniform delta
    (1, 1, 1) becomes (3/2, 3/4, 3/4) and the node's scale after [redo] is
    (7/2, 7/4, 7/4), which is not uniform. *)
Theorem uniform_delta_is_renormalised :
  (forall (N T : Type) (node : SceneNode N T) (op : ScaleOperation T) (n : N),
     mode op = RelativeToCurrent ->
     z (_scale op) == y (_scale op) ->
     y (_scale op) == x (_scale op) ->
     let sum := x (getScale n) + y (getScale n) + z (getScale n) in
     ~ sum == 0 ->
     veq (_scale (fst (exec redo (op, n))))
         (vmul (_scale op) (smul (3 / sum) (getScale n)))) /\
  (let n := RootNode.at_ Vector0 (mkVector 2 1 1) in
   let op := init 0%nat n (mkVector 1 1 1) (mkKwargs false false true Vector0 false) in
   fst (redo (op, n)) = Returns tt /\
   veq (_scale (fst (exec redo (op, n)))) (mkVector (3 # 2) (3 # 4) (3 # 4)) /\
   veq (getScale (snd (exec redo (op, n)))) (mkVector (7 # 2) (7 # 4) (7 # 4)) /\
   ~ uniform (getScale (snd (exec redo (op, n))))).
Proof.
  split.
  - intros N T node op n. apply redo_uniform_scale.
  - intros n op. split; [vm_compute; reflexivity |].
    split; [repeat split; Qdecide |].
    split; [repeat split; Qdecide |].
    intros (Hxy & _). revert Hxy. Qdecide.
Qed.

(** The general half at the node of the example. *)
Example uniform_delta_is_renormalised_witness :
  let n := RootNode.at_ Vector0 (mkVector 2 1 1) in
  let op := init 0%nat n (mkVector 1 1 1) (mkKwargs false false true Vector0 false) in
  mode op = RelativeToCurrent /\
  z (_scale op) == y (_scale op) /\
  y (_scale op) == x (_scale op) /\
  ~ 2 + 1 + 1 == 0 /\
  veq (_scale (fst (exec redo (op, n))))
      (vmul (_scale op) (smul (3 / (2 + 1 + 1)) (getScale n))).
Proof.
  intros n op.
  assert (Hzy : z (_scale op) == y (_scale op)) by reflexivity.
  assert (Hyx : y (_scale op) == x (_scale op)) by reflexivity.
  assert (Hsum : ~ 2 + 1 + 1 == 0) by (intro E; revert E; Qdecide).
  split; [reflexivity |].
  split; [exact Hzy |]. split; [exact Hyx |]. split; [exact Hsum |].
  exact (proj1 uniform_delta_is_renormalised _ _ RootNode.node op n
           eq_refl Hzy Hyx Hsum).
Defined.

(** C7 as the spec words it fails on a node whose scale sums to zero.  On
    the node with scale (2, -1, -1) the relative request (1, 1, 1) makes
    line 52 divide by zero: [redo] raises, the request is still (1, 1, 1)
    and the node is untouched, so the request has not been replaced by its
    product with 3 / (sx + sy + sz) * (sx, sy, sz), whatever value the
    quotient is given (here zero). *)
Example uniform_delta_zero_sum_not_rewritten :
  let n := RootNode.at_ Vector0 (mkVector 2 (-1) (-1)) in
  let op := init 0%nat n (mkVector 1 1 1) (mkKwargs false false true Vector0 false) in
  let sum := x (getScale n) + y (getScale n) + z (getScale n) in
  mode op = RelativeToCurrent /\
  (z (_scale op) == y (_scale op) /\ y (_scale op) == x (_scale op)) /\
  sum == 0 /\
  redo (op, n) = (Raises ZeroDivisionError, (op, n)) /\
  _scale (fst (exec redo (op, n))) = mkVector 1 1 1 /\
  ~ veq (_scale (fst (exec redo (op, n))))
        (vmul (_scale op) (smul (3 / sum) (getScale n))).
Proof.
  intros n op sum.
  split; [reflexivity |].
  split; [split; reflexivity |].
  split; [reflexivity |].
  split; [vm_compute; reflexivity |].
  split; [vm_compute; reflexivity |].
  intros (Hx & _). revert Hx. Qdecide.
Qed.

(** ** Division by the current scale *)

Section Normalisation.

Context {N T : Type} `{SceneNode N T}.

Lemma bind_run {A B} (m : M N T A) (k : A -> M N T B) st a st1 :
  m st = (Returns a, st1) -> bind m k st = k a st1.
Proof. unfold bind. intros ->. reflexivity. Qed.

Lemma bind_raise {A B} (m : M N T A) (k : A -> M N T B) st e st1 :
  m st = (Raises e, st1) -> bind m k st = (Raises e, st1).
Proof. unfold bind. intros ->. reflexivity. Qed.

Lemma magnitude_run (f : Vector) (op : ScaleOperation T) (n : N) :
  exists g : Vector,
    magnitude f (op, n) = (Returns g, (op, n)) /\
    x g = (if Qlt_bool 0 (x (getScale n))
           then Qabs (x (getScale n) + x (_scale op))
           else - Qabs (x (getScale n) - x (_scale op))) /\
    y g = (if Qlt_bool 0 (y (getScale n))
           then Qabs (y (getScale n) + y (_scale op))
           else - Qabs (y (getScale n) - y (_scale op))) /\
    z g = (if Qlt_bool 0 (z (getScale n))
           then Qabs (z (getScale n) + z (_scale op))
           else - Qabs (z (getScale n) - z (_scale op))).
Proof.
  eexists. split; [reflexivity |]. cbn [fst snd].
  destruct (Qlt_bool 0 (x (getScale n))), (Qlt_bool 0 (y (getScale n))),
    (Qlt_bool 0 (z (getScale n))); repeat split; reflexivity.
Qed.

Lemma normalise_raises (f c : Vector) (st : St N T) :
  ~ x f == 0 -> x c == 0 ->
  normalise f c st = (Raises ZeroDivisionError, st).
Proof.
  intros Hf Hc. apply Qne_bool_iff in Hf. apply Qeq_bool_iff in Hc.
  unfold normalise, bind, div, raise. rewrite Hf, Hc. reflexivity.
Qed.

(** The test of line 70 is on the magnitude, not on the divisor: with a zero
    current scale on the first axis and a non-zero, non-uniform request the
    magnitude is not zero and is divided by zero. *)
Lemma relative_redo_divides_by_zero (op : ScaleOperation T) (n : N) :
  mode op = RelativeToCurrent ->
  ~ (z (_scale op) == y (_scale op) /\ y (_scale op) == x (_scale op)) ->
  x (getScale n) == 0 ->
  ~ x (_scale op) == 0 ->
  redo (op, n) = (Raises ZeroDivisionError, (op, n)).
Proof.
  intros Hm Hnu Hx0 Hd.
  rewrite (redo_relative_branch op n Hm).
  destruct (magnitude_run Vector0 op n) as (g & Eg & Hgx & _).
  assert (Hlt : Qlt_bool 0 (x (getScale n)) = false).
  { apply Qlt_bool_false_iff. rewrite Hx0. apply Qle_refl. }
  rewrite Hlt in Hgx.
  assert (Hg : ~ x g == 0).
  { rewrite Hgx. intro E. apply Hd. revert E. rewrite Hx0.
    apply Qabs_case; intros; lra. }
  assert (Ef : relative_scale_factor (op, n) = (Raises ZeroDivisionError, (op, n))).
  { unfold relative_scale_factor.
    rewrite (bind_run _ _ _ _ _ (direction_fix_not_uniform op n Hnu)).
    rewrite (bind_run _ _ _ _ _ Eg).
    unfold bind at 1, node_get. cbn [snd].
    apply normalise_raises; assumption. }
  unfold redo_relative, relative_new_scale.
  apply bind_raise. apply bind_raise. exact Ef.
Qed.

End Normalisation.

(** C3, what the code does. The node's current scale is (0, 1, 1).  For the
    request (0, 0, 1) the magnitude of the first axis is zero, line 70 skips
    the division and [redo] returns.  For the request (1, 0, 0) the magnitude
    is -1, the division by the zero current scale is carried out and [redo]
    raises [ZeroDivisionError], leaving operation and node as they were. *)
Theorem relative_redo_zero_axis :
  let n := RootNode.at_ (mkVector 5 0 0) (mkVector 0 1 1) in
  let kw := mkKwargs false false true Vector0 false in
  x (getScale n) == 0 /\
  fst (redo (init 0%nat n (mkVector 0 0 1) kw, n)) = Returns tt /\
  redo (init 0%nat n (mkVector 1 0 0) kw, n) =
    (Raises ZeroDivisionError, (init 0%nat n (mkVector 1 0 0) kw, n)).
Proof.
  intros n kw. split; [reflexivity |].
  split; [vm_compute; reflexivity |].
  apply relative_redo_divides_by_zero.
  - reflexivity.
  - intros (_ & Hyx). revert Hyx. Qdecide.
  - reflexivity.
  - intro E. revert E. Qdecide.
Qed.

(** ** Mirrored axes *)

Section Mirror.

Context {N T : Type} `{SceneNode N T}.

(** Moving the node leaves its scale alone, scaling it in the parent's frame
    multiplies its scale axis by axis, and its scale is the one it was last
    given in the world's frame. *)
Hypothesis set_position_keeps_scale :
  forall (n : N) (p : Vector), getScale (setPosition n p) = getScale n.
Hypothesis scale_multiplies :
  forall (n : N) (f : Vector), getScale (scale n f Parent) = vmul f (getScale n).
Hypothesis get_set_scale_world :
  forall (n : N) (v : Vector), getScale (setScale n v (Some World)) = v.

Lemma normalise_skips_x (f c : Vector) (st : St N T) :
  x f == 0 -> ~ y c == 0 -> ~ z c == 0 ->
  exists g, normalise f c st = (Returns g, st) /\ x g = x f.
Proof.
  intros Hf Hy Hz.
  apply Qne_bool_false_iff in Hf.
  apply Qne_bool_iff in Hy. apply Qne_bool_iff in Hz.
  unfold Qne_bool in Hy, Hz. apply negb_true_iff in Hy, Hz.
  unfold normalise, bind, div, ret. rewrite Hf.
  destruct (Qne_bool (y f) 0); rewrite ?Hy;
    cbn [x y z setX setY setZ];
    destruct (Qne_bool (z f) 0); rewrite ?Hz;
    eexists; split; reflexivity.
Qed.

(** A mirrored first axis whose magnitude comes out as zero (the request on
    that axis equals the current scale) is left at +1/100 by [redo]: the
    test of line 90 takes the zero before the mirrored test of line 98. *)
Lemma mirrored_axis_driven_to_zero (op : ScaleOperation T) (n : N) :
  mode op = RelativeToCurrent ->
  _snap op = false ->
  _min_scale op = 1 # 100 ->
  ~ (z (_scale op) == y (_scale op) /\ y (_scale op) == x (_scale op)) ->
  x (getScale n) < 0 ->
  x (_scale op) == x (getScale n) ->
  ~ y (getScale n) == 0 ->
  ~ z (getScale n) == 0 ->
  exists st',
    redo (op, n) = (Returns tt, st') /\ x (getScale (snd st')) = 1 # 100.
Proof.
  intros Hm Hsnap Hmin Hnu Hneg Hd Hy Hz.
  destruct (magnitude_run Vector0 op n) as (f & Ef & Hfx & _).
  assert (Hlt : Qlt_bool 0 (x (getScale n)) = false).
  { apply Qlt_bool_false_iff. apply Qlt_le_weak. exact Hneg. }
  rewrite Hlt in Hfx.
  assert (Hf0 : x f == 0).
  { rewrite Hfx, Hd. setoid_replace (x (getScale n) - x (getScale n)) with 0 by ring.
    reflexivity. }
  destruct (normalise_skips_x f (getScale n) (op, n) Hf0 Hy Hz) as (g & Eg & Hgx).
  assert (Efac : relative_scale_factor (op, n) = (Returns g, (op, n))).
  { unfold relative_scale_factor.
    rewrite (bind_run _ _ _ _ _ (direction_fix_not_uniform op n Hnu)).
    rewrite (bind_run _ _ _ _ _ Ef).
    unfold bind at 1, node_get. cbn [snd]. exact Eg. }
  rewrite (redo_relative_branch op n Hm).
  unfold redo_relative, relative_new_scale.
  rewrite (bind_run _ _ _ _ _ (bind_run _ _ _ _ _ Efac)).
  unfold bind, self, node_call, node_get, ret. cbn [fst snd].
  eexists. split; [reflexivity |]. cbn [snd].
  rewrite get_set_scale_world, Hsnap, Hmin. unfold snap_scale.
  change (x ?v) with (component X v).
  rewrite enforce_min_size_component. unfold component.
  rewrite set_position_keeps_scale, scale_multiplies, set_position_keeps_scale.
  apply (min_size_axis_cases (1 # 100)); [reflexivity |].
  unfold vmul; cbn [x]. rewrite Hgx, Hf0. split; [| reflexivity].
  setoid_replace (0 * x (getScale n)) with 0 by ring. apply Qle_refl.
Qed.

End Mirror.

(** C8, what the code does. The node's scale is (-1, 1, 1).  The relative
    request (-1, 0, 0) gives the first axis the magnitude -|(-1) - (-1)| = 0;
    the test of line 90 takes the zero for a non-mirrored value and [redo]
    leaves the axis at +1/100.  With snap, the request (-998/1000, 0, 0)
    gives -2/1000, which rounds to zero and ends at +1/100 as well.  The
    request (-1/2, 0, 0) keeps the axis mirrored. *)
Theorem relative_redo_mirrored_axis :
  let n := RootNode.at_ Vector0 (mkVector (-1) 1 1) in
  let run (d : Vector) (snap : bool) :=
    redo (init 0%nat n d (mkKwargs false false true Vector0 snap), n) in
  x (getScale n) < 0 /\
  (fst (run (mkVector (-1) 0 0) false) = Returns tt /\
   x (getScale (snd (snd (run (mkVector (-1) 0 0) false)))) = 1 # 100) /\
  (fst (run (mkVector (- (998 # 1000)) 0 0) true) = Returns tt /\
   x (getScale (snd (snd (run (mkVector (- (998 # 1000)) 0 0) true)))) == 1 # 100) /\
  (fst (run (mkVector (- (1 # 2)) 0 0) false) = Returns tt /\
   x (getScale (snd (snd (run (mkVector (- (1 # 2)) 0 0) false)))) == - (1 # 2)).
Proof.
  intros n run. split; [reflexivity |]. split.
  - destruct (@mirrored_axis_driven_to_zero _ _ RootNode.node
                (fun m p => eq_refl) (fun m f => eq_refl) (fun m v => eq_refl)
                (init 0%nat n (mkVector (-1) 0 0)
                   (mkKwargs false false true Vector0 false)) n)
      as (st' & E & Hx); try reflexivity; try (intro E; revert E; Qdecide).
    + intros (_ & E). revert E. Qdecide.
    + unfold run. rewrite E. split; [reflexivity | exact Hx].
  - repeat split; Qdecide.
Qed.

(** ** Merging *)

Section Merge.

Context {N T : Type} `{SceneNode N T}.

(** What a successful merge returns: the scale vector of [self], the snapshot
    of [other], and every key-word argument at its default. *)
Lemma mergeWith_returns (self other m : ScaleOperation T) (n : N) :
  mergeWith self (IsScaleOperation other) n = Some m ->
  m = with_old_transformation (init (_node self) n (_scale self) no_kwargs)
        (_old_transformation other) /\
  _node m = _node self /\
  _scale m = _scale self /\
  _old_transformation m = _old_transformation other /\
  mode m = DefaultMultiply.
Proof.
  unfold mergeWith.
  destruct (negb (_node other =? _node self)%nat); [discriminate |].
  destruct (_set_scale other && negb (_set_scale self)); [discriminate |].
  destruct (_add_scale other && negb (_add_scale self)); [discriminate |].
  intro E. inversion E. repeat split.
Qed.

(** When a merge is refused. *)
Lemma mergeWith_refused (self : ScaleOperation T) (other : Operation) (n : N) :
  mergeWith self other n = None <->
  match other with
  | OtherOperation _ => True
  | IsScaleOperation other =>
      _node other <> _node self \/
      (_set_scale other = true /\ _set_scale self = false) \/
      (_add_scale other = true /\ _add_scale self = false)
  end.
Proof.
  destruct other as [other | c]; [| simpl; tauto].
  unfold mergeWith.
  destruct (Nat.eqb_spec (_node other) (_node self)) as [En | En]; simpl.
  - destruct (_set_scale other), (_set_scale self), (_add_scale other),
      (_add_scale self); simpl; split; intro E;
      try discriminate; try tauto;
      destruct E as [E | [[E1 E2] | [E1 E2]]]; congruence.
  - split; [intros _; left; exact En | reflexivity].
Qed.

End Merge.

(** C4, what the code does. [self] and [other] both set the scale of the
    same node absolutely, to (2, 2, 2) and (3, 3, 3).  The merge succeeds
    with the scale vector of [self] and the snapshot of [other], so undoing
    it restores the node as it was before [other]; but it is built without
    key-word arguments, so its mode is the default one, not the absolute one
    of [self], and redoing it multiplies the node's scale by (2, 2, 2)
    instead of setting it. *)
Theorem mergeWith_drops_mode :
  let n0 := RootNode.at_ Vector0 (mkVector 1 1 1) in
  let n1 := RootNode.at_ Vector0 (mkVector 3 3 3) in
  let n2 := RootNode.at_ Vector0 (mkVector 2 2 2) in
  let kw := mkKwargs true false false Vector0 false in
  let other := init 0%nat n0 (mkVector 3 3 3) kw in
  let self := init 0%nat n1 (mkVector 2 2 2) kw in
  exists m,
    mergeWith self (IsScaleOperation other) n2 = Some m /\
    _scale m = _scale self /\
    _old_transformation m = _old_transformation other /\
    snd (exec undo (m, n2)) = n0 /\
    mode self = SetAbsolute /\
    mode m = DefaultMultiply /\
    veq (getScale (snd (exec redo (self, n0)))) (mkVector 2 2 2) /\
    veq (getScale (snd (exec redo (m, n1)))) (mkVector 6 6 6).
Proof.
  intros n0 n1 n2 kw other self. eexists. split; [reflexivity |].
  repeat split; Qdecide.
Qed.

(** C5, what the code does. A merge is refused for an operation of another
    class, for another node, and when the older operation sets or adds and
    the newer one does not.  It is not refused the other way round: a newer
    operation that sets (or adds to) the scale merges with an older one that
    does neither. *)
Theorem mergeWith_checks_one_direction :
  let n := RootNode.at_ Vector0 (mkVector 1 1 1) in
  let plain := init 0%nat n (mkVector 2 2 2) no_kwargs in
  let setting := init 0%nat n (mkVector 2 2 2) (mkKwargs true false false Vector0 false) in
  let adding := init 0%nat n (mkVector 2 2 2) (mkKwargs false true false Vector0 false) in
  let elsewhere := init 1%nat n (mkVector 2 2 2) no_kwargs in
  mergeWith plain (OtherOperation 7) n = None /\
  mergeWith plain (IsScaleOperation elsewhere) n = None /\
  mergeWith plain (IsScaleOperation setting) n = None /\
  mergeWith plain (IsScaleOperation adding) n = None /\
  _set_scale setting <> _set_scale plain /\
  mergeWith setting (IsScaleOperation plain) n <> None /\
  _add_scale adding <> _add_scale plain /\
  mergeWith adding (IsScaleOperation plain) n <> None.
Proof.
  intros n plain setting adding elsewhere.
  repeat split; try reflexivity; discriminate.
Qed.

(** * Further properties of the methods *)

Lemma Mode_eq_dec (a b : Mode) : {a = b} + {a <> b}.
Proof. decide equality. Defined.

(** ** What [redo] leaves of the operation and of the node *)

Section RedoFrame.

Context {N T : Type} `{SceneNode N T}.

Lemma bind_raises {A B} (m : M N T A) (k : A -> M N T B) st e st' :
  bind m k st = (Raises e, st') ->
  m st = (Raises e, st') \/
  exists a st1, m st = (Returns a, st1) /\ k a st1 = (Raises e, st').
Proof.
  unfold bind. destruct (m st) as [[a | e0] st1]; intro E.
  - right. exists a, st1. split; [reflexivity | exact E].
  - left. inversion E. reflexivity.
Qed.

(** However often [redo] is called, and whether the calls return or raise,
    the operation keeps its node, its snapshot, its three mode flags (hence
    its mode), its pivot, its snap flag and its minimum: [_scale] is the
    only field [redo] ever assigns. *)
Theorem redo_assigns_only_scale (op : ScaleOperation T) (n : N) (k : nat) :
  let op' := fst (times k redo (op, n)) in
  _node op' = _node op /\
  _old_transformation op' = _old_transformation op /\
  _set_scale op' = _set_scale op /\
  _add_scale op' = _add_scale op /\
  _relative_scale op' = _relative_scale op /\
  mode op' = mode op /\
  _scale_around_point op' = _scale_around_point op /\
  _snap op' = _snap op /\
  _min_scale op' = _min_scale op.
Proof.
  intro op'.
  assert (Hc : same_command op op').
  { apply (keeps_times command_kept command_kept_refl command_kept_trans
             redo k (op, n)). apply redo_keeps. }
  unfold same_command in Hc. rewrite Hc. unfold mode. simpl.
  repeat split; reflexivity.
Qed.

Lemma redo_other_modes (op : ScaleOperation T) (n : N) :
  mode op <> RelativeToCurrent ->
  exists n', redo (op, n) = (Returns tt, (op, n')).
Proof.
  unfold mode, redo, bind, self, node_get, node_call. simpl.
  destruct (_set_scale op); [intros _; eexists; reflexivity |].
  destruct (_add_scale op); [intros _; eexists; reflexivity |].
  destruct (_relative_scale op); [intro E; exfalso; apply E; reflexivity |].
  intros _. eexists. reflexivity.
Qed.

Lemma redo_fst_unchanged (op : ScaleOperation T) (n : N) :
  mode op <> RelativeToCurrent \/
  ~ (z (_scale op) == y (_scale op) /\ y (_scale op) == x (_scale op)) ->
  fst (exec redo (op, n)) = op.
Proof.
  destruct (Mode_eq_dec (mode op) RelativeToCurrent) as [Hm | Hm].
  - intros [Hn | Hnu]; [contradiction |].
    unfold exec. rewrite (redo_relative_branch op n Hm).
    fold (exec redo_relative (op, n)). rewrite redo_relative_self.
    unfold exec. rewrite (direction_fix_not_uniform op n Hnu). reflexivity.
  - intros _. destruct (redo_other_modes op n Hm) as (n' & E).
    unfold exec. rewrite E. reflexivity.
Qed.

(** Outside the relative mode, and in the relative mode when the three
    components of the request are not all equal, [redo] leaves the whole
    operation as it is, [_scale] included. *)
Theorem redo_leaves_operation (op : ScaleOperation T) (n : N) :
  mode op <> RelativeToCurrent \/
  ~ (z (_scale op) == y (_scale op) /\ y (_scale op) == x (_scale op)) ->
  fst (exec redo (op, n)) = op.
Proof. exact (redo_fst_unchanged op n). Qed.

(** [redo] can raise only in the relative mode, and when it raises the node
    has not been touched: every division of lines 52 and 71-75 comes before
    the first call that changes the node. *)
Theorem redo_raise_leaves_node (op : ScaleOperation T) (n : N) (e : exn) :
  fst (redo (op, n)) = Raises e ->
  mode op = RelativeToCurrent /\ snd (snd (redo (op, n))) = n.
Proof.
  intro E.
  destruct (Mode_eq_dec (mode op) RelativeToCurrent) as [Hm | Hm].
  2: { destruct (redo_other_modes op n Hm) as (n' & E').
       rewrite E' in E. discriminate. }
  split; [exact Hm |].
  rewrite (redo_relative_branch op n Hm) in *.
  destruct (redo_relative (op, n)) as [o st'] eqn:Er. simpl in E. subst o.
  unfold redo_relative in Er.
  apply bind_raises in Er. destruct Er as [Er | (a & st1 & _ & Er)].
  2: { unfold bind, self, node_call in Er. discriminate. }
  unfold relative_new_scale in Er.
  apply bind_raises in Er. destruct Er as [Er | (a & st1 & _ & Er)].
  2: { unfold bind, self, node_call, node_get, ret in Er. discriminate. }
  pose proof (relative_scale_factor_keeps_node (op, n)) as Hn.
  unfold exec, node_kept in Hn. rewrite Er in Hn. exact Hn.
Qed.

End RedoFrame.

(** On the concrete node, an absolute operation. *)
Example redo_leaves_operation_witness :
  let n := RootNode.at_ Vector0 (mkVector 2 1 1) in
  let op := init 0%nat n (mkVector 3 3 3) (mkKwargs true false true Vector0 true) in
  (mode op <> RelativeToCurrent \/
   ~ (z (_scale op) == y (_scale op) /\ y (_scale op) == x (_scale op))) /\
  fst (exec redo (op, n)) = op.
Proof.
  intros n op.
  assert (Hm : mode op <> RelativeToCurrent \/
               ~ (z (_scale op) == y (_scale op) /\ y (_scale op) == x (_scale op)))
    by (left; discriminate).
  split; [exact Hm |].
  exact (redo_leaves_operation op n Hm).
Defined.

(** On the concrete node with scale (0, 1, 1): the request (1, 0, 0) makes
    [redo] raise. *)
Example redo_raise_leaves_node_witness :
  let n := RootNode.at_ (mkVector 5 0 0) (mkVector 0 1 1) in
  let op := init 0%nat n (mkVector 1 0 0) (mkKwargs false false true Vector0 false) in
  fst (redo (op, n)) = Raises ZeroDivisionError /\
  mode op = RelativeToCurrent /\ snd (snd (redo (op, n))) = n.
Proof.
  intros n op.
  assert (E : fst (redo (op, n)) = Raises ZeroDivisionError)
    by (vm_compute; reflexivity).
  split; [exact E |].
  exact (redo_raise_leaves_node op n ZeroDivisionError E).
Defined.

(** ** When the relative [redo] returns *)

Section RelativeReturns.

Context {N T : Type} `{SceneNode N T}.

Lemma direction_fix_returns (op : ScaleOperation T) (n : N) :
  (z (_scale op) == y (_scale op) /\ y (_scale op) == x (_scale op) ->
   ~ vsum (getScale n) == 0) ->
  exists op1, direction_fix (op, n) = (Returns tt, (op1, n)).
Proof.
  intro Hsum.
  destruct (Qeq_bool (z (_scale op)) (y (_scale op))) eqn:E1;
    destruct (Qeq_bool (y (_scale op)) (x (_scale op))) eqn:E2.
  1: { apply Qeq_bool_iff in E1. apply Qeq_bool_iff in E2.
       eexists. apply (direction_fix_uniform op n E1 E2).
       apply Hsum. split; assumption. }
  all: exists op; apply direction_fix_not_uniform; intros [F1 F2];
    apply Qeq_bool_iff in F1; apply Qeq_bool_iff in F2; congruence.
Qed.

Lemma normalise_returns_nonzero (f c : Vector) (st : St N T) :
  ~ x c == 0 -> ~ y c == 0 -> ~ z c == 0 ->
  exists g, normalise f c st = (Returns g, st).
Proof.
  intros Hx Hy Hz.
  apply Qne_bool_iff in Hx. apply Qne_bool_iff in Hy. apply Qne_bool_iff in Hz.
  unfold Qne_bool in Hx, Hy, Hz. apply negb_true_iff in Hx, Hy, Hz.
  unfold normalise, bind, div, ret.
  destruct (Qne_bool (x f) 0); rewrite ?Hx;
    cbn [x y z setX setY setZ];
    destruct (Qne_bool (y f) 0); rewrite ?Hy;
    cbn [x y z setX setY setZ];
    destruct (Qne_bool (z f) 0); rewrite ?Hz;
    eexists; reflexivity.
Qed.

Lemma redo_returns_nonzero (op : ScaleOperation T) (n : N) :
  ~ x (getScale n) == 0 ->
  ~ y (getScale n) == 0 ->
  ~ z (getScale n) == 0 ->
  (z (_scale op) == y (_scale op) /\ y (_scale op) == x (_scale op) ->
   ~ vsum (getScale n) == 0) ->
  fst (redo (op, n)) = Returns tt.
Proof.
  intros Hx Hy Hz Hsum.
  destruct (Mode_eq_dec (mode op) RelativeToCurrent) as [Hm | Hm].
  2: { destruct (redo_other_modes op n Hm) as (n' & E). rewrite E. reflexivity. }
  rewrite (redo_relative_branch op n Hm).
  destruct (direction_fix_returns op n Hsum) as (op1 & Efix).
  destruct (magnitude_run Vector0 op1 n) as (f & Ef & _).
  destruct (normalise_returns_nonzero f (getScale n) (op1, n) Hx Hy Hz)
    as (g & Eg).
  assert (Efac : relative_scale_factor (op, n) = (Returns g, (op1, n))).
  { unfold relative_scale_factor.
    rewrite (bind_run _ _ _ _ _ Efix).
    rewrite (bind_run _ _ _ _ _ Ef).
    unfold bind at 1, node_get. cbn [snd]. exact Eg. }
  unfold redo_relative, relative_new_scale.
  rewrite (bind_run _ _ _ _ _ (bind_run _ _ _ _ _ Efac)).
  reflexivity.
Qed.

(** [redo] returns whenever the node's current scale has no zero component
    and, for a request with three equal components, the components of the
    current scale do not sum to zero: these are the only divisors. *)
Theorem redo_returns_on_nonzero_scale (op : ScaleOperation T) (n : N) :
  ~ x (getScale n) == 0 ->
  ~ y (getScale n) == 0 ->
  ~ z (getScale n) == 0 ->
  (z (_scale op) == y (_scale op) /\ y (_scale op) == x (_scale op) ->
   ~ vsum (getScale n) == 0) ->
  fst (redo (op, n)) = Returns tt.
Proof. exact (redo_returns_nonzero op n). Qed.

End RelativeReturns.

(** On the concrete node: a mirrored, non-uniform scale and a uniform
    request. *)
Example redo_returns_on_nonzero_scale_witness :
  let n := RootNode.at_ Vector0 (mkVector (-2) 1 3) in
  let op := init 0%nat n (mkVector 1 1 1) (mkKwargs false false true Vector0 true) in
  ~ x (getScale n) == 0 /\ ~ y (getScale n) == 0 /\ ~ z (getScale n) == 0 /\
  ~ vsum (getScale n) == 0 /\
  fst (redo (op, n)) = Returns tt.
Proof.
  intros n op.
  assert (Hx : ~ x (getScale n) == 0) by (intro E; revert E; Qdecide).
  assert (Hy : ~ y (getScale n) == 0) by (intro E; revert E; Qdecide).
  assert (Hz : ~ z (getScale n) == 0) by (intro E; revert E; Qdecide).
  assert (Hs : ~ vsum (getScale n) == 0) by (intro E; revert E; Qdecide).
  repeat (split; [assumption |]).
  exact (redo_returns_on_nonzero_scale op n Hx Hy Hz (fun _ => Hs)).
Defined.

(** ** The scale a relative [redo] leaves *)

Lemma min_size_axis_wd (m q q' : Q) :
  q == q' -> min_size_axis m q == min_size_axis m q'.
Proof.
  intro E. unfold min_size_axis, Qlt_bool.
  rewrite (Qleb_comp m m (Qeq_refl m) q q' E).
  rewrite (Qleb_comp 0 0 (Qeq_refl 0) q q' E).
  destruct (negb (Qle_bool m q') && Qle_bool 0 q'); [reflexivity |].
  rewrite (Qleb_comp q q' E (- m) (- m) (Qeq_refl _)).
  rewrite (Qleb_comp q q' E 0 0 (Qeq_refl _)).
  destruct (negb (Qle_bool q' (- m)) && Qle_bool q' 0); [reflexivity | exact E].
Qed.

Lemma min_size_axis_nonneg (m q : Q) :
  0 < m -> 0 <= q -> m <= min_size_axis m q.
Proof.
  intros Hm Hq. destruct (min_size_axis_cases m q Hm) as (Hpos & _ & Hout).
  destruct (Qlt_le_dec q m) as [L | L].
  - rewrite Hpos by (split; assumption). apply Qle_refl.
  - rewrite Hout by (left; exact L). exact L.
Qed.

Lemma round_half_even_nonneg (q : Q) : 0 <= q -> (0 <= round_half_even q)%Z.
Proof.
  intro Hq. unfold round_half_even.
  assert (Hn : (0 <= Qfloor q)%Z).
  { change 0%Z with (Qfloor 0). apply Qfloor_resp_le. exact Hq. }
  destruct (q - inject_Z (Qfloor q) ?= 1 # 2); [| exact Hn | lia].
  destruct (Z.even (Qfloor q)); lia.
Qed.

Lemma round_nonneg (q : Q) (d : nat) : 0 <= q -> 0 <= round q d.
Proof.
  intro Hq. unfold round.
  assert (Hp : 0 < inject_Z (10 ^ Z.of_nat d)).
  { change 0 with (inject_Z 0). rewrite <- Zlt_Qlt. apply Z.pow_pos_nonneg; lia. }
  apply Qle_shift_div_l; [exact Hp |].
  setoid_replace (0 * inject_Z (10 ^ Z.of_nat d)) with 0 by ring.
  change 0 with (inject_Z 0). rewrite <- Zle_Qle.
  apply round_half_even_nonneg.
  apply Qmult_le_0_compat; [exact Hq | apply Qlt_le_weak; exact Hp].
Qed.

Lemma snap_scale_component (a : Axis) (s : bool) (g v : Vector) :
  component a (snap_scale s g v) =
  if s && Qne_bool (component a g) 1
  then round (component a v) 2 else component a v.
Proof.
  destruct a, s; unfold component, snap_scale; components;
    cbn [andb]; reflexivity.
Qed.

Lemma combine_axis_sign (c d : Q) :
  (0 < c -> 0 <= combine_axis c d) /\ (c <= 0 -> combine_axis c d <= 0).
Proof.
  unfold combine_axis. split; intro Hc.
  - apply Qlt_bool_iff in Hc. rewrite Hc. apply Qabs_nonneg.
  - apply Qlt_bool_false_iff in Hc. rewrite Hc.
    pose proof (Qabs_nonneg (c - d)). lra.
Qed.

Section RelativeResult.

Context {N T : Type} `{SceneNode N T}.

Lemma normalise_returns (f c g : Vector) (st st' : St N T) :
  normalise f c st = (Returns g, st') ->
  st' = st /\ veq (vmul g c) f.
Proof.
  unfold normalise, bind, div, ret, raise.
  destruct (Qne_bool (x f) 0) eqn:Fx; [destruct (Qeq_bool (x c) 0) eqn:Cx |];
    try discriminate; cbn [x y z setX setY setZ];
    (destruct (Qne_bool (y f) 0) eqn:Fy; [destruct (Qeq_bool (y c) 0) eqn:Cy |]);
    try discriminate; cbn [x y z setX setY setZ];
    (destruct (Qne_bool (z f) 0) eqn:Fz; [destruct (Qeq_bool (z c) 0) eqn:Cz |]);
    try discriminate; intro E; inversion E; subst; (split; [reflexivity |]);
    unfold veq, vmul; cbn [x y z setX setY setZ];
    repeat match goal with
      | F : Qne_bool _ 0 = false |- _ => apply Qne_bool_false_iff in F
      | C : Qeq_bool _ 0 = false |- _ =>
          apply (f_equal negb) in C; apply Qne_bool_iff in C
      end;
    repeat split;
    first [ field; assumption
          | match goal with
            | F : ?u == 0 |- _ * _ == ?u => rewrite F; ring
            end ].
Qed.

Lemma direction_fix_keeps_node : keeps node_kept direction_fix.
Proof. unfold direction_fix. repeat node_step. Qed.

(** The factor, times the current scale, is the magnitude computed from the
    request as [redo] leaves it in [self._scale]. *)
Lemma relative_scale_factor_returns (op op1 : ScaleOperation T) (n : N) (g : Vector) :
  relative_scale_factor (op, n) = (Returns g, (op1, n)) ->
  forall a : Axis,
    component a g * component a (getScale n) ==
    combine_axis (component a (getScale n)) (component a (_scale op1)).
Proof.
  unfold relative_scale_factor. intro E.
  apply bind_returns in E. destruct E as ([] & [opa n'] & Efix & E).
  pose proof (direction_fix_keeps_node (op, n)) as Hn.
  unfold exec, node_kept in Hn. rewrite Efix in Hn. simpl in Hn. subst n'.
  destruct (magnitude_run Vector0 opa n) as (f & Ef & Hfx & Hfy & Hfz).
  rewrite (bind_run _ _ _ _ _ Ef) in E.
  unfold bind at 1, node_get in E. cbn [snd] in E.
  apply normalise_returns in E. destruct E as (Est & Hx & Hy & Hz).
  inversion Est. subst opa.
  unfold vmul in Hx, Hy, Hz. cbn [x y z] in Hx, Hy, Hz.
  intros [| |]; unfold component, combine_axis.
  - rewrite Hx, Hfx. reflexivity.
  - rewrite Hy, Hfy. reflexivity.
  - rewrite Hz, Hfz. reflexivity.
Qed.

(** Moving the node leaves its scale alone, scaling it in the parent's frame
    multiplies its scale axis by axis, and its scale is the one it was last
    given in the world's frame. *)
Hypothesis set_position_keeps_scale :
  forall (n : N) (p : Vector), getScale (setPosition n p) = getScale n.
Hypothesis scale_multiplies :
  forall (n : N) (f : Vector), getScale (scale n f Parent) = vmul f (getScale n).
Hypothesis get_set_scale_world :
  forall (n : N) (v : Vector), getScale (setScale n v (Some World)) = v.

(** The scale before the minimum, axis by axis: the magnitude, rounded when
    snap is on and the factor of the axis is not 1. *)
Lemma relative_redo_components (op : ScaleOperation T) (n : N) (st' : St N T) :
  mode op = RelativeToCurrent ->
  redo (op, n) = (Returns tt, st') ->
  exists g : Vector,
    forall a : Axis,
      let q := component a g * component a (getScale n) in
      q == combine_axis (component a (getScale n)) (component a (_scale (fst st'))) /\
      component a (getScale (snd st')) =
      min_size_axis (_min_scale op)
        (if _snap op && Qne_bool (component a g) 1 then round q 2 else q).
Proof.
  intros Hm E.
  destruct (redo_relative_returns op n st' Hm E)
    as (g & op1 & Eg & Hc & _ & Hst).
  cbv zeta in Hst. exists g. intros a q. subst st'. cbn [fst snd].
  split; [apply (relative_scale_factor_returns op op1 n g Eg) |].
  rewrite get_set_scale_world, enforce_min_size_component, snap_scale_component.
  rewrite set_position_keeps_scale, scale_multiplies, set_position_keeps_scale.
  replace (component a (vmul g (getScale n))) with q
    by (destruct a; reflexivity).
  reflexivity.
Qed.

Lemma relative_redo_scale_axis
  (op : ScaleOperation T) (n : N) (st' : St N T) (a : Axis) :
  mode op = RelativeToCurrent ->
  _snap op = false ->
  redo (op, n) = (Returns tt, st') ->
  component a (getScale (snd st')) ==
  min_size_axis (_min_scale op)
    (combine_axis (component a (getScale n)) (component a (_scale (fst st')))).
Proof.
  intros Hm Hs E.
  destruct (relative_redo_components op n st' Hm E) as (g & Hg).
  destruct (Hg a) as (Hq & Hr). rewrite Hr, Hs. cbn [andb].
  apply min_size_axis_wd. exact Hq.
Qed.

(** Without snap, a relative [redo] that returns leaves on every axis the
    magnitude of lines 55-66 put through the minimum: |c + d| for a current
    scale c > 0, -|c - d| otherwise, d being the request as [redo] leaves it
    in [self._scale]. *)
Theorem relative_redo_scale
  (op : ScaleOperation T) (n : N) (st' : St N T) (a : Axis) :
  mode op = RelativeToCurrent ->
  _snap op = false ->
  redo (op, n) = (Returns tt, st') ->
  component a (getScale (snd st')) ==
  min_size_axis (_min_scale op)
    (combine_axis (component a (getScale n)) (component a (_scale (fst st')))).
Proof. exact (relative_redo_scale_axis op n st' a). Qed.

(** With or without snap, an axis whose current scale is positive comes out
    of a relative [redo] at 1/100 or more: it is never mirrored and never
    collapsed. *)
Theorem relative_redo_keeps_positive_axis
  (r : NodeRef) (n0 n : N) (v : Vector) (kw : Kwargs) (st' : St N T) (a : Axis) :
  let op := init r n0 v kw in
  mode op = RelativeToCurrent ->
  redo (op, n) = (Returns tt, st') ->
  0 < component a (getScale n) ->
  1 # 100 <= component a (getScale (snd st')).
Proof.
  intros op Hm E Hpos.
  destruct (relative_redo_components op n st' Hm E) as (g & Hg).
  destruct (Hg a) as (Hq & Hr). rewrite Hr.
  apply min_size_axis_nonneg; [reflexivity |].
  assert (Hq0 : 0 <= component a g * component a (getScale n)).
  { rewrite Hq. apply combine_axis_sign. exact Hpos. }
  destruct (_snap op && Qne_bool (component a g) 1);
    [apply round_nonneg; exact Hq0 | exact Hq0].
Qed.

(** Without snap, a mirrored axis stays mirrored, at -1/100 or less, unless
    the request on that axis equals the current scale. *)
Theorem relative_redo_keeps_mirrored_axis
  (r : NodeRef) (n0 n : N) (v : Vector) (kw : Kwargs) (st' : St N T) (a : Axis) :
  let op := init r n0 v kw in
  mode op = RelativeToCurrent ->
  snap kw = false ->
  redo (op, n) = (Returns tt, st') ->
  component a (getScale n) < 0 ->
  ~ component a (_scale (fst st')) == component a (getScale n) ->
  component a (getScale (snd st')) <= - (1 # 100).
Proof.
  intros op Hm Hs E Hneg Hd.
  rewrite (relative_redo_scale_axis op n st' a Hm Hs E).
  change (_min_scale op) with (1 # 100).
  set (q := combine_axis (component a (getScale n)) (component a (_scale (fst st')))).
  assert (Hq : q < 0).
  { unfold q, combine_axis.
    assert (L : Qlt_bool 0 (component a (getScale n)) = false)
      by (apply Qlt_bool_false_iff; apply Qlt_le_weak; exact Hneg).
    rewrite L. revert Hd. apply Qabs_case; intros; lra. }
  assert (Hm100 : 0 < 1 # 100) by reflexivity.
  destruct (min_size_axis_cases (1 # 100) q Hm100) as (_ & Hmir & Hout).
  destruct (Qlt_le_dec (- (1 # 100)) q) as [L | L].
  - rewrite Hmir by (split; assumption). apply Qle_refl.
  - rewrite Hout by (right; exact L). exact L.
Qed.

End RelativeResult.

(** On the concrete node with scale (2, 1, -1) and the request
    (1, 0, 1/2): the third axis goes to -|-1 - 1/2| = -3/2. *)
Example relative_redo_scale_witness :
  let n := RootNode.at_ (mkVector 5 0 0) (mkVector 2 1 (-1)) in
  let op := init 0%nat n (mkVector 1 0 (1 # 2)) (mkKwargs false false true Vector0 false) in
  let st' := snd (redo (op, n)) in
  mode op = RelativeToCurrent /\
  _snap op = false /\
  redo (op, n) = (Returns tt, st') /\
  component Z (getScale (snd st')) ==
  min_size_axis (_min_scale op)
    (combine_axis (component Z (getScale n)) (component Z (_scale (fst st')))) /\
  component Z (getScale (snd st')) == - (3 # 2).
Proof.
  intros n op st'.
  assert (E : redo (op, n) = (Returns tt, st')) by (vm_compute; reflexivity).
  split; [reflexivity |]. split; [reflexivity |]. split; [exact E |].
  split; [| Qdecide].
  exact (@relative_redo_scale _ _ RootNode.node
           (fun m p => eq_refl) (fun m f => eq_refl) (fun m w => eq_refl)
           op n st' Z eq_refl eq_refl E).
Defined.

(** On the concrete node, with snap: the first axis is driven from 1 to
    2/1000, rounds to zero and ends at 1/100. *)
Example relative_redo_keeps_positive_axis_witness :
  let n := RootNode.at_ (mkVector 5 0 0) (mkVector 1 1 (-1)) in
  let kw := mkKwargs false false true Vector0 true in
  let d := mkVector (- (998 # 1000)) 0 0 in
  let st' := snd (redo (init 0%nat n d kw, n)) in
  mode (init 0%nat n d kw) = RelativeToCurrent /\
  redo (init 0%nat n d kw, n) = (Returns tt, st') /\
  0 < component X (getScale n) /\
  1 # 100 <= component X (getScale (snd st')).
Proof.
  intros n kw d st'.
  assert (E : redo (init 0%nat n d kw, n) = (Returns tt, st'))
    by (vm_compute; reflexivity).
  assert (Hpos : 0 < component X (getScale n)) by reflexivity.
  split; [reflexivity |]. split; [exact E |]. split; [exact Hpos |].
  exact (@relative_redo_keeps_positive_axis _ _ RootNode.node
           (fun m p => eq_refl) (fun m f => eq_refl) (fun m w => eq_refl)
           0%nat n n d kw st' X eq_refl E Hpos).
Defined.

(** On the concrete node with scale (-1, 1, 1) and the request (-1/2, 0, 0). *)
Example relative_redo_keeps_mirrored_axis_witness :
  let n := RootNode.at_ Vector0 (mkVector (-1) 1 1) in
  let kw := mkKwargs false false true Vector0 false in
  let d := mkVector (- (1 # 2)) 0 0 in
  let st' := snd (redo (init 0%nat n d kw, n)) in
  mode (init 0%nat n d kw) = RelativeToCurrent /\
  snap kw = false /\
  redo (init 0%nat n d kw, n) = (Returns tt, st') /\
  component X (getScale n) < 0 /\
  ~ component X (_scale (fst st')) == component X (getScale n) /\
  component X (getScale (snd st')) <= - (1 # 100).
Proof.
  intros n kw d st'.
  assert (E : redo (init 0%nat n d kw, n) = (Returns tt, st'))
    by (vm_compute; reflexivity).
  assert (Hneg : component X (getScale n) < 0) by reflexivity.
  assert (Hd : ~ component X (_scale (fst st')) == component X (getScale n))
    by (intro F; revert F; Qdecide).
  split; [reflexivity |]. split; [reflexivity |]. split; [exact E |].
  split; [exact Hneg |]. split; [exact Hd |].
  exact (@relative_redo_keeps_mirrored_axis _ _ RootNode.node
           (fun m p => eq_refl) (fun m f => eq_refl) (fun m w => eq_refl)
           0%nat n n d kw st' X eq_refl eq_refl E Hneg Hd).
Defined.

(** ** The absolute and the default mode *)

#[global] Instance vmul_proper : Proper (veq ==> veq ==> veq) vmul.
Proof.
  intros u u' (Hx & Hy & Hz) v v' (Hx' & Hy' & Hz').
  unfold veq, vmul; simpl. rewrite Hx, Hy, Hz, Hx', Hy', Hz'.
  repeat split; reflexivity.
Qed.

Lemma vmul_assoc (u v w : Vector) : veq (vmul u (vmul v w)) (vmul (vmul u v) w).
Proof. unfold veq, vmul; simpl. repeat split; ring. Qed.

Lemma vmul_ones (v : Vector) : veq (vmul (mkVector 1 1 1) v) v.
Proof. unfold veq, vmul; simpl. repeat split; ring. Qed.

Section SetAndMultiply.

Context {N T : Type} `{SceneNode N T}.

Lemma redo_set_run (op : ScaleOperation T) (n : N) :
  mode op = SetAbsolute ->
  redo (op, n) = (Returns tt, (op, setScale n (_scale op) (Some World))).
Proof.
  unfold mode, redo, bind, self, node_call. simpl.
  destruct (_set_scale op); [reflexivity |].
  destruct (_add_scale op); [discriminate |].
  destruct (_relative_scale op); discriminate.
Qed.

Lemma redo_default_run (op : ScaleOperation T) (n : N) :
  mode op = DefaultMultiply ->
  redo (op, n) = (Returns tt, (op, scale n (_scale op) World)).
Proof.
  unfold mode, redo, bind, self, node_call. simpl.
  destruct (_set_scale op); [discriminate |].
  destruct (_add_scale op); [discriminate |].
  destruct (_relative_scale op); [discriminate | reflexivity].
Qed.

(** With [set_scale], whatever the other flags, the pivot and the snap flag,
    and whatever the node's scale was: after one [redo] or several the
    operation is as it was and the node's scale is the operation's vector as
    given, with no minimum and no rounding applied. *)
Theorem redo_set_replaces_scale
  (get_set_scale_world :
     forall (n : N) (v : Vector), getScale (setScale n v (Some World)) = v)
  (op : ScaleOperation T) (n : N) (k : nat) :
  mode op = SetAbsolute ->
  fst (times (S k) redo (op, n)) = op /\
  getScale (snd (times (S k) redo (op, n))) = _scale op.
Proof.
  intro Hm. induction k as [| k [IHop IHs]].
  - unfold times, exec. simpl. rewrite (redo_set_run op n Hm). simpl.
    split; [reflexivity | apply get_set_scale_world].
  - change (times (S (S k)) redo (op, n))
      with (exec redo (times (S k) redo (op, n))).
    destruct (times (S k) redo (op, n)) as [op' n']. simpl in IHop. subst op'.
    unfold exec. rewrite (redo_set_run op n' Hm). simpl.
    split; [reflexivity | apply get_set_scale_world].
Qed.

(** With no mode flag set, [redo] hands the vector to the node's [scale] in
    the world's frame and changes nothing else; on a node whose [scale]
    multiplies its scale axis by axis, [k] calls in a row multiply the
    initial scale by the [k]-th power of the vector. *)
Theorem redo_default_multiplies
  (scale_multiplies_world :
     forall (n : N) (f : Vector), getScale (scale n f World) = vmul f (getScale n))
  (op : ScaleOperation T) (n : N) (k : nat) :
  mode op = DefaultMultiply ->
  fst (times k redo (op, n)) = op /\
  veq (getScale (snd (times k redo (op, n))))
      (vmul (vpow (_scale op) k) (getScale n)).
Proof.
  intro Hm. induction k as [| k [IHop IHs]].
  - split; [reflexivity |]. simpl. symmetry. apply vmul_ones.
  - change (times (S k) redo (op, n)) with (exec redo (times k redo (op, n))).
    destruct (times k redo (op, n)) as [op' n']. simpl in IHop, IHs. subst op'.
    unfold exec. rewrite (redo_default_run op n' Hm). simpl.
    split; [reflexivity |]. rewrite scale_multiplies_world, IHs.
    apply vmul_assoc.
Qed.

End SetAndMultiply.

(** On the concrete node: an absolute operation that also carries the
    additive and the relative flag, a pivot and snap, called three times. *)
Example redo_set_replaces_scale_witness :
  let n := RootNode.at_ (mkVector 5 0 0) (mkVector 7 (-3) 0) in
  let op := init 0%nat n (mkVector (1 # 1000) 0 (-2))
              (mkKwargs true true true (mkVector 1 1 1) true) in
  mode op = SetAbsolute /\
  fst (times 3 redo (op, n)) = op /\
  getScale (snd (times 3 redo (op, n))) = mkVector (1 # 1000) 0 (-2).
Proof.
  intros n op. split; [reflexivity |].
  exact (@redo_set_replaces_scale _ _ RootNode.node (fun m w => eq_refl)
           op n 2 eq_refl).
Defined.

(** On the concrete node: the vector (2, 1/2, -1) applied three times. *)
Example redo_default_multiplies_witness :
  let n := RootNode.at_ (mkVector 5 0 0) (mkVector 1 2 3) in
  let op := init 0%nat n (mkVector 2 (1 # 2) (-1)) no_kwargs in
  mode op = DefaultMultiply /\
  fst (times 3 redo (op, n)) = op /\
  veq (getScale (snd (times 3 redo (op, n))))
      (vmul (vpow (_scale op) 3) (getScale n)).
Proof.
  intros n op. split; [reflexivity |].
  exact (@redo_default_multiplies _ _ RootNode.node (fun m f => eq_refl)
           op n 3 eq_refl).
Defined.

(** ** The request as [redo] rewrites it *)

Lemma combine_axis_wd (c c' d d' : Q) :
  c == c' -> d == d' -> combine_axis c d == combine_axis c' d'.
Proof.
  intros Ec Ed. unfold combine_axis, Qlt_bool.
  rewrite (Qleb_comp c c' Ec 0 0 (Qeq_refl 0)).
  destruct (negb (Qle_bool c' 0)); rewrite Ec, Ed; reflexivity.
Qed.

Section Request.

Context {N T : Type} `{SceneNode N T}.

Lemma direction_fix_zero_sum (op : ScaleOperation T) (n : N) :
  z (_scale op) == y (_scale op) ->
  y (_scale op) == x (_scale op) ->
  vsum (getScale n) == 0 ->
  direction_fix (op, n) = (Raises ZeroDivisionError, (op, n)).
Proof.
  intros Hzy Hyx Hs.
  apply Qeq_bool_iff in Hzy. apply Qeq_bool_iff in Hyx. apply Qeq_bool_iff in Hs.
  unfold direction_fix, bind, self, node_get, div, raise. simpl.
  rewrite Hzy, Hyx. simpl. unfold vsum in Hs. rewrite Hs. reflexivity.
Qed.

(** The three ways [direction_fix] can go. *)
Lemma direction_fix_cases (op : ScaleOperation T) (n : N) :
  exec direction_fix (op, n) = (op, n) \/
  (z (_scale op) == y (_scale op) /\ y (_scale op) == x (_scale op) /\
   ~ vsum (getScale n) == 0 /\
   exec direction_fix (op, n) =
   (with_scale op
      (vmul (_scale op) (smul (1 / vsum (getScale n) * 3) (getScale n))), n)).
Proof.
  destruct (Qeq_bool (z (_scale op)) (y (_scale op))) eqn:E1;
    destruct (Qeq_bool (y (_scale op)) (x (_scale op))) eqn:E2.
  1: { apply Qeq_bool_iff in E1. apply Qeq_bool_iff in E2.
       destruct (Qeq_dec (vsum (getScale n)) 0) as [Hs | Hs].
       - left. unfold exec. rewrite (direction_fix_zero_sum op n E1 E2 Hs).
         reflexivity.
       - right. repeat (split; [assumption |]).
         unfold exec. rewrite (direction_fix_uniform op n E1 E2 Hs).
         reflexivity. }
  all: left; unfold exec; rewrite direction_fix_not_uniform; [reflexivity |];
    intros [F1 F2]; apply Qeq_bool_iff in F1; apply Qeq_bool_iff in F2;
    congruence.
Qed.



(** Rewriting the request a second time at the same node scale changes
    nothing more: the rewritten request either no longer has three equal
    components, or is zero, or belongs to a uniformly scaled node, for which
    the multiplier is (1, 1, 1). *)
Theorem direction_fix_idempotent (op : ScaleOperation T) (n : N) :
  let st1 := exec direction_fix (op, n) in
  snd st1 = n /\
  snd (exec direction_fix st1) = n /\
  veq (_scale (fst (exec direction_fix st1))) (_scale (fst st1)).
Proof.
  intro st1. unfold st1.
  destruct (direction_fix_cases op n) as [F | (Hzy & Hyx & Hs & F)].
  - rewrite !F. cbn [fst snd]. repeat split; reflexivity.
  - rewrite F. cbn [fst snd]. split; [reflexivity |].
    set (v1 := vmul (_scale op) (smul (1 / vsum (getScale n) * 3) (getScale n))).
    destruct (direction_fix_cases (with_scale op v1) n)
      as [G | (Uzy & Uyx & _ & G)]; rewrite G; cbn [fst snd with_scale _scale].
    + repeat split; reflexivity.
    + split; [reflexivity |].
      cbn [with_scale _scale] in Uzy, Uyx.
      unfold v1, veq, vmul, smul, vsum in *. cbn [x y z] in *.
      set (r := 1 / (x (getScale n) + y (getScale n) + z (getScale n)) * 3) in *.
      destruct (Qeq_dec (x (_scale op)) 0) as [K | K].
      * rewrite Hzy, Hyx, K. repeat split; ring.
      * assert (Hsum3 : r * x (getScale n) + r * y (getScale n)
                        + r * z (getScale n) == 3)
          by (unfold r; field; exact Hs).
        clearbody r.
        rewrite Hzy, Hyx in Uzy. rewrite Hyx in Uyx.
        apply (proj1 (Qmult_inj_l _ _ _ K)) in Uzy.
        apply (proj1 (Qmult_inj_l _ _ _ K)) in Uyx.
        assert (Ha : r * x (getScale n) == 1) by lra.
        assert (Hb : r * y (getScale n) == 1) by lra.
        assert (Hc : r * z (getScale n) == 1) by lra.
        rewrite Ha, Hb, Hc. repeat split; ring.
Qed.

End Request.

Section UniformNode.

Context {N T : Type} `{SceneNode N T}.

Hypothesis set_position_keeps_scale :
  forall (n : N) (p : Vector), getScale (setPosition n p) = getScale n.
Hypothesis scale_multiplies :
  forall (n : N) (f : Vector), getScale (scale n f Parent) = vmul f (getScale n).
Hypothesis get_set_scale_world :
  forall (n : N) (v : Vector), getScale (setScale n v (Some World)) = v.

(** On a node whose three scale components are the same non-zero number, a
    relative [redo] without snap of a request with three equal components
    returns, leaves the request as it was (the multiplier is (1, 1, 1)) and
    leaves the node uniformly scaled. *)
Theorem uniform_request_on_uniform_node (op : ScaleOperation T) (n : N) :
  mode op = RelativeToCurrent ->
  _snap op = false ->
  z (_scale op) == y (_scale op) ->
  y (_scale op) == x (_scale op) ->
  y (getScale n) == x (getScale n) ->
  z (getScale n) == x (getScale n) ->
  ~ x (getScale n) == 0 ->
  exists st' : St N T,
    redo (op, n) = (Returns tt, st') /\
    veq (_scale (fst st')) (_scale op) /\
    uniform (getScale (snd st')).
Proof.
  intros Hm Hsnap Hzy Hyx Hyc Hzc Hx0.
  assert (Hs : ~ x (getScale n) + y (getScale n) + z (getScale n) == 0)
    by (intro E; apply Hx0; lra).
  assert (Hret : fst (redo (op, n)) = Returns tt).
  { apply redo_returns_nonzero.
    - exact Hx0.
    - intro E. apply Hx0. lra.
    - intro E. apply Hx0. lra.
    - intros _. exact Hs. }
  destruct (redo (op, n)) as [o st'] eqn:E. simpl in Hret. subst o.
  exists st'. split; [reflexivity |].
  assert (Hd : veq (_scale (fst st')) (_scale op)).
  { pose proof (redo_uniform_scale op n Hm Hzy Hyx Hs) as Hu.
    unfold exec in Hu. rewrite E in Hu. cbn [snd] in Hu. rewrite Hu.
    clear - Hyc Hzc Hx0.
    assert (H3 : ~ x (getScale n) + x (getScale n) + x (getScale n) == 0)
      by (intro F; apply Hx0; lra).
    unfold veq, vmul, smul; cbn [x y z].
    repeat split; rewrite Hyc, Hzc; field; exact H3. }
  split; [exact Hd |].
  pose proof (relative_redo_scale_axis set_position_keeps_scale scale_multiplies
                get_set_scale_world op n st') as R.
  destruct Hd as (Dx & Dy & Dz).
  unfold uniform. split.
  - rewrite (R X Hm Hsnap E), (R Y Hm Hsnap E). unfold component.
    apply min_size_axis_wd. apply combine_axis_wd; [symmetry; exact Hyc |].
    rewrite Dx, Dy. symmetry. exact Hyx.
  - rewrite (R Y Hm Hsnap E), (R Z Hm Hsnap E). unfold component.
    apply min_size_axis_wd. apply combine_axis_wd; [rewrite Hyc, Hzc; reflexivity |].
    rewrite Dy, Dz. symmetry. exact Hzy.
Qed.

End UniformNode.

(** On the concrete node with scale (2, 2, 2) and the request (1, 1, 1). *)
Example uniform_request_on_uniform_node_witness :
  let n := RootNode.at_ (mkVector 5 0 0) (mkVector 2 2 2) in
  let op := init 0%nat n (mkVector 1 1 1) (mkKwargs false false true Vector0 false) in
  ~ x (getScale n) == 0 /\
  exists st' : St RootNode.Transformation RootNode.Transformation,
    redo (op, n) = (Returns tt, st') /\
    veq (_scale (fst st')) (_scale op) /\
    uniform (getScale (snd st')).
Proof.
  intros n op.
  assert (Hx0 : ~ x (getScale n) == 0) by (intro E; revert E; Qdecide).
  split; [exact Hx0 |].
  apply (@uniform_request_on_uniform_node _ _ RootNode.node
           (fun m p => eq_refl) (fun m f => eq_refl) (fun m w => eq_refl) op n);
    try reflexivity; exact Hx0.
Defined.

(** ** Snap and minimum as functions on vectors *)

Lemma vector_eq (u w : Vector) :
  x u = x w -> y u = y w -> z u = z w -> u = w.
Proof. destruct u, w; simpl; intros -> -> ->; reflexivity. Qed.

Lemma enforce_min_size_axes (m : Q) (v : Vector) :
  enforce_min_size m v =
  mkVector (min_size_axis m (x v)) (min_size_axis m (y v)) (min_size_axis m (z v)).
Proof.
  apply vector_eq; cbn [x y z].
  - exact (enforce_min_size_component X m v).
  - exact (enforce_min_size_component Y m v).
  - exact (enforce_min_size_component Z m v).
Qed.

Lemma min_size_axis_fixed (m q : Q) :
  0 < m -> (min_size_axis m q = q <-> m <= Qabs q).
Proof.
  intro Hm. destruct (min_size_axis_cases m q Hm) as (Hpos & Hneg & Hout).
  destruct (min_size_axis_bounds m q Hm) as (Hb & _).
  split.
  - intro E. rewrite E in Hb. exact Hb.
  - intro Hq. apply Hout. revert Hq. apply Qabs_case; intros; lra.
Qed.

(** For a positive minimum, the vectors the minimum leaves alone are exactly
    those whose three components have magnitude at least the minimum, and the
    result of the minimum is one of them: enforcing it twice is enforcing it
    once. *)
Theorem enforce_min_size_idempotent (m : Q) (v : Vector) :
  0 < m ->
  (enforce_min_size m v = v <-> forall a : Axis, m <= Qabs (component a v)) /\
  enforce_min_size m (enforce_min_size m v) = enforce_min_size m v.
Proof.
  intro Hm.
  assert (Fix : forall w,
             enforce_min_size m w = w <-> forall a : Axis, m <= Qabs (component a w)).
  { intro w. split.
    - intros E a. rewrite <- E, enforce_min_size_component.
      apply min_size_axis_bounds. exact Hm.
    - intro Hall. rewrite enforce_min_size_axes.
      apply vector_eq; cbn [x y z]; apply (min_size_axis_fixed m _ Hm).
      + exact (Hall X).
      + exact (Hall Y).
      + exact (Hall Z). }
  split; [apply Fix |].
  apply Fix. intro a. rewrite enforce_min_size_component.
  apply min_size_axis_bounds. exact Hm.
Qed.

(** The minimum of the operation applied to a vector with a zero, a small
    mirrored and a large component. *)
Example enforce_min_size_idempotent_witness :
  let v := mkVector 0 (- (1 # 1000)) 5 in
  0 < 1 # 100 /\
  (enforce_min_size (1 # 100) v = v <->
   forall a : Axis, 1 # 100 <= Qabs (component a v)) /\
  enforce_min_size (1 # 100) (enforce_min_size (1 # 100) v) =
  enforce_min_size (1 # 100) v.
Proof.
  intro v. split; [reflexivity |].
  exact (enforce_min_size_idempotent (1 # 100) v eq_refl).
Defined.

Lemma round_half_even_close (r : Q) :
  Qabs (inject_Z (round_half_even r) - r) <= 1 # 2.
Proof.
  unfold round_half_even.
  pose proof (Qfloor_le r) as Hlo. pose proof (Qlt_floor r) as Hhi.
  rewrite inject_Z_plus in Hhi. change (inject_Z 1) with 1 in Hhi.
  apply Qabs_Qle_condition.
  destruct (Qcompare_spec (r - inject_Z (Qfloor r)) (1 # 2)) as [E | L | G].
  - destruct (Z.even (Qfloor r));
      rewrite ?inject_Z_plus; change (inject_Z 1) with 1; split; lra.
  - split; lra.
  - rewrite inject_Z_plus. change (inject_Z 1) with 1. split; lra.
Qed.

Lemma round_close (q : Q) : Qabs (round q 2 - q) <= 1 # 200.
Proof.
  unfold round. change (inject_Z (10 ^ Z.of_nat 2)) with 100.
  pose proof (round_half_even_close (q * 100)) as Hc.
  apply Qabs_Qle_condition in Hc. apply Qabs_Qle_condition.
  set (k := inject_Z (round_half_even (q * 100))) in *. clearbody k.
  unfold Qdiv. change (/ 100) with (1 # 100). split; lra.
Qed.

(** Snap replaces a component by its rounding to two decimals when snap is
    on and the factor of that axis is not 1, and leaves it as it is when
    snap is off or the factor of that axis is 1; either way the component
    moves by at most 1/200. *)
Theorem snap_scale_moves_little (s : bool) (g v : Vector) (a : Axis) :
  (s = true /\ ~ component a g == 1 ->
   component a (snap_scale s g v) = round (component a v) 2) /\
  (s = false \/ component a g == 1 ->
   component a (snap_scale s g v) = component a v) /\
  Qabs (component a (snap_scale s g v) - component a v) <= 1 # 200.
Proof.
  rewrite snap_scale_component. split; [| split].
  - intros [-> Hg]. apply Qne_bool_iff in Hg. rewrite Hg. reflexivity.
  - intros [-> | Hg]; [reflexivity |].
    apply Qne_bool_false_iff in Hg. rewrite Hg, andb_false_r. reflexivity.
  - destruct (s && Qne_bool (component a g) 1); [apply round_close |].
    setoid_replace (component a v - component a v) with 0 by ring.
    discriminate.
Qed.

(** Snap on, factors (2, 1, 1), scale (1234/1000, 1234/1000, 5): the first
    component is rounded to 123/100, the second is left alone. *)
Example snap_scale_moves_little_witness :
  let g := mkVector 2 1 1 in
  let v := mkVector (1234 # 1000) (1234 # 1000) 5 in
  (true = true /\ ~ component X g == 1) /\
  (true = false \/ component Y g == 1) /\
  component X (snap_scale true g v) = round (component X v) 2 /\
  component X (snap_scale true g v) == 123 # 100 /\
  component Y (snap_scale true g v) = component Y v.
Proof.
  intros g v.
  assert (Hx : true = true /\ ~ component X g == 1)
    by (split; [reflexivity | intro E; revert E; Qdecide]).
  assert (Hy : true = false \/ component Y g == 1) by (right; reflexivity).
  split; [exact Hx |]. split; [exact Hy |].
  split; [exact (proj1 (snap_scale_moves_little true g v X) Hx) |].
  split; [Qdecide |].
  exact (proj1 (proj2 (snap_scale_moves_little true g v Y)) Hy).
Defined.

(** ** Merged operations *)

Section MergedOperations.

Context {N T : Type} `{SceneNode N T}.

(** Undoing a merged operation, after any number of calls of its [redo] and
    from any node state, gives the node the snapshot of the older of the two
    operations. *)
Theorem merged_undo_restores_older
  (get_set_transformation :
     forall (n : N) (t : T), getLocalTransformation (setTransformation n t) = t)
  (self other m : ScaleOperation T) (n n1 : N) (k : nat) :
  mergeWith self (IsScaleOperation other) n = Some m ->
  fst (undo (times k redo (m, n1))) = Returns tt /\
  getLocalTransformation (snd (exec undo (times k redo (m, n1)))) =
  _old_transformation other.
Proof.
  intro E. destruct (mergeWith_returns self other m n E) as (_ & _ & _ & Hold & _).
  split; [reflexivity |].
  unfold exec. rewrite undo_run. cbn [snd].
  rewrite get_set_transformation, redos_keep_snapshot. exact Hold.
Qed.

(** Merging down a history of three operations gives one result, whichever
    pair is merged first and whatever the node's state at each merge: the
    scale vector of the newest with the snapshot of the oldest. *)
Theorem mergeWith_associative
  (a b c ab bc m : ScaleOperation T) (n1 n2 n3 n4 : N) :
  mergeWith c (IsScaleOperation b) n1 = Some bc ->
  mergeWith b (IsScaleOperation a) n2 = Some ab ->
  mergeWith bc (IsScaleOperation a) n3 = Some m ->
  mergeWith c (IsScaleOperation ab) n4 = Some m /\
  _scale m = _scale c /\
  _old_transformation m = _old_transformation a.
Proof.
  intros Ebc Eab Em.
  destruct (mergeWith_returns c b bc n1 Ebc) as (Hbc & Nbc & Sbc & _).
  destruct (mergeWith_returns b a ab n2 Eab) as (Hab & Nab & _).
  destruct (mergeWith_returns bc a m n3 Em) as (Hm & _ & Sm & Om & _).
  split; [| split; [congruence | exact Om]].
  assert (Nodes : _node ab = _node c).
  { rewrite Nab. revert Ebc. unfold mergeWith.
    destruct (Nat.eqb_spec (_node b) (_node c)) as [Eq | Ne]; simpl;
      [intros _; exact Eq | discriminate]. }
  unfold mergeWith. rewrite Nodes, Nat.eqb_refl. simpl.
  rewrite Hab. simpl. rewrite Hm, Nbc, Sbc. reflexivity.
Qed.

End MergedOperations.

(** On the concrete node: a default operation merged into an absolute one,
    redone twice and undone. *)
Example merged_undo_restores_older_witness :
  let n0 := RootNode.at_ (mkVector 1 2 3) (mkVector 1 1 1) in
  let n1 := RootNode.at_ (mkVector 1 2 3) (mkVector 3 3 3) in
  let other := init 0%nat n0 (mkVector 3 3 3) (mkKwargs true false false Vector0 false) in
  let self := init 0%nat n1 (mkVector 2 2 2) (mkKwargs true false false Vector0 false) in
  exists m,
    mergeWith self (IsScaleOperation other) n1 = Some m /\
    getLocalTransformation (snd (exec undo (times 2 redo (m, n1)))) = n0.
Proof.
  intros n0 n1 other self. eexists. split; [reflexivity |].
  exact (proj2 (@merged_undo_restores_older _ _ RootNode.node
                  (fun m t => eq_refl) self other _ n1 n1 2 eq_refl)).
Defined.

(** On the concrete node: three default operations on the same node. *)
Example mergeWith_associative_witness :
  let n := RootNode.at_ Vector0 (mkVector 1 1 1) in
  let n' := RootNode.at_ Vector0 (mkVector 2 2 2) in
  let a := init 0%nat n (mkVector 2 2 2) no_kwargs in
  let b := init 0%nat n' (mkVector 3 3 3) no_kwargs in
  let c := init 0%nat n' (mkVector 5 5 5) (mkKwargs false false true Vector0 true) in
  exists ab bc m,
    mergeWith c (IsScaleOperation b) n = Some bc /\
    mergeWith b (IsScaleOperation a) n = Some ab /\
    mergeWith bc (IsScaleOperation a) n' = Some m /\
    mergeWith c (IsScaleOperation ab) n' = Some m /\
    _scale m = _scale c /\
    _old_transformation m = _old_transformation a.
Proof.
  intros n n' a b c. eexists _, _, _.
  split; [reflexivity |]. split; [reflexivity |]. split; [reflexivity |].
  exact (@mergeWith_associative _ _ RootNode.node a b c _ _ _ n n n' n'
           eq_refl eq_refl eq_refl).
Defined.

(** ** Relative and additive requests as arithmetic on the scale *)

Section Arithmetic.

Context {N T : Type} `{SceneNode N T}.

Hypothesis set_position_keeps_scale :
  forall (n : N) (p : Vector), getScale (setPosition n p) = getScale n.
Hypothesis scale_multiplies :
  forall (n : N) (f : Vector), getScale (scale n f Parent) = vmul f (getScale n).
Hypothesis get_set_scale_world :
  forall (n : N) (v : Vector), getScale (setScale n v (Some World)) = v.
Hypothesis get_set_scale :
  forall (n : N) (v : Vector), getScale (setScale n v None) = v.

(** Without snap and away from the minimum, a relative [redo] adds the
    request to a positive scale and subtracts it from a mirrored one: on an
    axis with current scale c and request d (as [redo] leaves it in
    [self._scale]) the result is c + d when c > 0 and c + d >= 1/100, and
    c - d when c < 0 and c - d <= -1/100. *)
Theorem relative_redo_adds_or_subtracts
  (r : NodeRef) (n0 n : N) (v : Vector) (kw : Kwargs) (st' : St N T) (a : Axis) :
  let op := init r n0 v kw in
  mode op = RelativeToCurrent ->
  snap kw = false ->
  redo (op, n) = (Returns tt, st') ->
  let c := component a (getScale n) in
  let d := component a (_scale (fst st')) in
  (0 < c /\ 1 # 100 <= c + d \/ c < 0 /\ c - d <= - (1 # 100)) ->
  component a (getScale (snd st')) == (if Qlt_bool 0 c then c + d else c - d).
Proof.
  intros op Hm Hs E c d Hcase.
  rewrite (relative_redo_scale_axis set_position_keeps_scale scale_multiplies
             get_set_scale_world op n st' a Hm Hs E).
  change (_min_scale op) with (1 # 100). fold c d.
  assert (Hm100 : 0 < 1 # 100) by reflexivity.
  destruct (min_size_axis_cases (1 # 100) (combine_axis c d) Hm100)
    as (_ & _ & Hout).
  unfold combine_axis in *.
  destruct Hcase as [[Hc Hcd] | [Hc Hcd]].
  - apply Qlt_bool_iff in Hc. rewrite Hc in *.
    assert (Ea : Qabs (c + d) == c + d) by (apply Qabs_pos; lra).
    rewrite Hout by (left; rewrite Ea; exact Hcd). exact Ea.
  - assert (L : Qlt_bool 0 c = false)
      by (apply Qlt_bool_false_iff; apply Qlt_le_weak; exact Hc).
    rewrite L in *.
    assert (Ea : Qabs (c - d) == - (c - d)) by (apply Qabs_neg; lra).
    rewrite Hout by (right; rewrite Ea; lra). rewrite Ea. ring.
Qed.

(** An additive operation with vector v followed by an additive operation
    with vector -v on the same node leaves the node's scale as it was. *)
Theorem redo_add_then_subtract (op1 op2 : ScaleOperation T) (n : N) :
  mode op1 = AddToCurrent ->
  mode op2 = AddToCurrent ->
  veq (_scale op2) (vneg (_scale op1)) ->
  veq (getScale (snd (exec redo (op2, snd (exec redo (op1, n)))))) (getScale n).
Proof.
  intros H1 H2 (Hx & Hy & Hz).
  unfold exec. rewrite (redo_add_run op1 n H1). cbn [snd].
  rewrite (redo_add_run op2 _ H2). cbn [snd].
  rewrite !get_set_scale.
  unfold veq, vadd, vneg in *. cbn [x y z] in *.
  rewrite Hx, Hy, Hz. repeat split; ring.
Qed.

End Arithmetic.

(** On the concrete node with scale (2, 1, -1) and the request (1, 0, 1/2):
    the first axis goes to 3, the third to -3/2. *)
Example relative_redo_adds_or_subtracts_witness :
  let n := RootNode.at_ (mkVector 5 0 0) (mkVector 2 1 (-1)) in
  let kw := mkKwargs false false true Vector0 false in
  let d := mkVector 1 0 (1 # 2) in
  let st' := snd (redo (init 0%nat n d kw, n)) in
  redo (init 0%nat n d kw, n) = (Returns tt, st') /\
  component X (getScale (snd st')) == 3 /\
  component Z (getScale (snd st')) == - (3 # 2).
Proof.
  intros n kw d st'.
  assert (E : redo (init 0%nat n d kw, n) = (Returns tt, st'))
    by (vm_compute; reflexivity).
  split; [exact E |]. split.
  - rewrite (@relative_redo_adds_or_subtracts _ _ RootNode.node
               (fun m p => eq_refl) (fun m f => eq_refl) (fun m w => eq_refl)
               0%nat n n d kw st' X eq_refl eq_refl E);
      [Qdecide | left; split; Qdecide].
  - rewrite (@relative_redo_adds_or_subtracts _ _ RootNode.node
               (fun m p => eq_refl) (fun m f => eq_refl) (fun m w => eq_refl)
               0%nat n n d kw st' Z eq_refl eq_refl E);
      [Qdecide | right; split; Qdecide].
Defined.

(** On the concrete node: adding (1/2, 0, -1) and then (-1/2, 0, 1). *)
Example redo_add_then_subtract_witness :
  let n := RootNode.at_ (mkVector 5 0 0) (mkVector 2 1 (-1)) in
  let kw := mkKwargs false true false Vector0 false in
  let op1 := init 0%nat n (mkVector (1 # 2) 0 (-1)) kw in
  let op2 := init 0%nat n (mkVector (- (1 # 2)) 0 1) kw in
  veq (_scale op2) (vneg (_scale op1)) /\
  veq (getScale (snd (exec redo (op2, snd (exec redo (op1, n)))))) (getScale n).
Proof.
  intros n kw op1 op2.
  assert (Hv : veq (_scale op2) (vneg (_scale op1))) by (repeat split; Qdecide).
  split; [exact Hv |].
  exact (@redo_add_then_subtract _ _ RootNode.node (fun m w => eq_refl)
           op1 op2 n eq_refl eq_refl Hv).
Defined.
